(** * psi4_losc/utils.py: occupation resolver and grid assemblers

    A shallow embedding of [src/psi4_losc/utils.py].  The external
    quantum-chemistry engine is represented by the plain data the Python
    code reads from it (electron counts, basis size, grid blocks).

    - [Occ]: [form_occ] as a function of the wavefunction data and of the
      override mapping.  Python [dict]s built by the code ([rst_occ]) are
      [gmap Z Q]: the code sorts their items before returning, so
      insertion order is not observable.  Python [dict]s received as
      arguments ([occ] and its inner mappings) are the lists their
      [.items()] iterate over, in iteration order: the order decides
      which error is raised first and which of two entries resolving to
      the same orbital is written last.  Occupation numbers are
      rationals; the code only compares them with [0] and [1] and stores
      them unchanged.
    - [OccStore]: the same function over a store of dictionary objects,
      with the default argument [occ={}] as an object shared by all
      calls.
    - [Grid]: [form_grid_lo] and [form_grid_w] over arrays with entries
      in an arbitrary type [F] with a zero, an addition and a
      multiplication; slicing, fancy indexing, [dot] and broadcasting
      assignment follow [numpy].
    - [raise] is the [Raise] constructor of [result]; every [raise
      Exception(...)] site of the source has its own constructor carrying
      the values its message interpolates. *)

From Stdlib Require Import QArith Ascii String.
From stdpp Require Import gmap strings list fin_maps sorting.

Set Warnings "-clear-no-such-hyp".

Open Scope Z_scope.

(** ** Exceptions and results *)

Inductive exn : Type :=
  | WfnTypeError (msg : string)         (* utils.py:58, utils.py:123 *)
  | InvalidChannel (k : string)         (* utils.py:153 *)
  | UnknownIndex (orb_i : string)       (* utils.py:159 *)
  | IndexOutOfRange (orb_i : Z) (nbf : nat)  (* utils.py:165 *)
  | InvalidOccupation (occ_i : Q)       (* utils.py:167 *)
  | ValueError                          (* unpacking / broadcasting *)
  | IndexError                          (* list or array index *)
  | AttributeError.                     (* attribute of None *)

Inductive result (A : Type) : Type :=
  | OK (a : A)
  | Raise (e : exn).
Arguments OK {A} a.
Arguments Raise {A} e.

#[global] Instance result_ret : MRet result := λ A a, OK a.
#[global] Instance result_bind : MBind result := λ A B f m,
  match m with
  | OK a => f a
  | Raise e => Raise e
  end.

(** [for x in l: st = body(st, x)], stopping at the first exception. *)
Fixpoint for_each {S A} (body : S → A → result S) (st : S) (l : list A)
  : result S :=
  match l with
  | [] => OK st
  | x :: l' => st' ← body st x ; for_each body st' l'
  end.

(** [[f(x) for x in l]], stopping at the first exception. *)
Fixpoint map_each {A B} (f : A → result B) (l : list A) : result (list B) :=
  match l with
  | [] => OK []
  | x :: l' => y ← f x ; ys ← map_each f l' ; OK (y :: ys)
  end.

(** ** Python strings: [str.lower] on ASCII letters

    Strings are byte strings.  Only the letters A-Z are changed: no other
    character lowers to a letter of the names the code compares with
    ("alpha", "beta", "homo", "lumo"), so every comparison of the source
    has the outcome it has in Python.  On a string of ASCII characters
    ([is_ascii]) [lower] is [str.lower] itself; on other strings Python
    also lowers the cased characters outside ASCII, so the text that an
    exception carries is Python's for ASCII strings only. *)

Definition lower_ascii (c : ascii) : ascii :=
  let n := nat_of_ascii c in
  if (65 <=? n)%nat && (n <=? 90)%nat then ascii_of_nat (n + 32) else c.

Fixpoint lower (s : string) : string :=
  match s with
  | EmptyString => EmptyString
  | String c s' => String (lower_ascii c) (lower s')
  end.

(** [l.index(x)] of a list that is known to contain [x]. *)
Fixpoint index_of (x : string) (l : list string) : option nat :=
  match l with
  | [] => None
  | y :: l' => if decide (x = y) then Some 0%nat else S <$> index_of x l'
  end.
Arguments index_of : simpl never.

(** The strings all of whose characters are ASCII. *)
Fixpoint is_ascii (s : string) : Prop :=
  match s with
  | EmptyString => True
  | String c s' => (nat_of_ascii c < 128)%nat ∧ is_ascii s'
  end.

(** ** form_occ *)

Module Occ.

(** What [form_occ] reads from the wavefunction: [wfn.basisset().nbf()],
    [wfn.nalpha()], [wfn.nbeta()]. *)
Record wfn : Type := Wfn { nbf : nat; nalpha : nat; nbeta : nat }.

(** Keys of the inner override mapping: an [int] or a [str]. *)
Inductive selector : Type :=
  | SInt (i : Z)
  | SStr (s : string).

(** [occ.items()], with [v.items()] for every value [v]. *)
Definition overrides : Type := list (string * list (selector * Q)).

Definition spin_chanel : list string := ["alpha"; "beta"]%string.

(** [{i: 1 for i in range(n)}] *)
Definition aufbau (n : nat) : gmap Z Q :=
  list_to_map ((λ i : nat, (Z.of_nat i, 1%Q)) <$> seq 0 n).

(** Lines 156-163: a string selector is lower-cased and resolved against
    the electron count of channel [s]; an integer is kept as it is. *)
Definition resolve (nelec : list nat) (s : nat) (orb_i : selector)
  : result Z :=
  match orb_i with
  | SStr str =>
      let orb_i := lower str in
      if bool_decide (orb_i ∈ ["homo"; "lumo"]%string) then
        match nelec !! s with
        | Some n =>
            if bool_decide (orb_i = "homo"%string)
            then OK (Z.of_nat n - 1) else OK (Z.of_nat n)
        | None => Raise IndexError
        end
      else Raise (UnknownIndex orb_i)
  | SInt i => OK i
  end.

(** [0 <= occ_i <= 1] *)
Definition occ_in_range (occ_i : Q) : bool :=
  Qle_bool 0 occ_i && Qle_bool occ_i 1.

(** Lines 155-168: the body of the inner loop. *)
Definition set_occ (nbf : nat) (nelec : list nat) (s : nat)
    (rst_occ : list (gmap Z Q)) (item : selector * Q)
  : result (list (gmap Z Q)) :=
  let '(orb_i, occ_i) := item in
  orb_i ← resolve nelec s orb_i ;
  if bool_decide (Z.of_nat nbf ≤ orb_i) then
    Raise (IndexOutOfRange orb_i nbf)
  else if negb (occ_in_range occ_i) then
    Raise (InvalidOccupation occ_i)
  else
    match rst_occ !! s with
    | Some d => OK (<[s := <[orb_i := occ_i]> d]> rst_occ)
    | None => Raise IndexError
    end.

(** Lines 149-168: the body of the outer loop. *)
Definition set_channel (nbf : nat) (nelec : list nat)
    (rst_occ : list (gmap Z Q)) (kv : string * list (selector * Q))
  : result (list (gmap Z Q)) :=
  let '(k, v) := kv in
  let k := lower k in
  match index_of k spin_chanel with
  | None => Raise (InvalidChannel k)
  | Some s => for_each (set_occ nbf nelec s) rst_occ v
  end.

(** Lines 145-168: the dictionaries after all overrides were applied. *)
Definition apply_overrides (w : wfn) (occ : overrides)
  : result (list (gmap Z Q)) :=
  let nelec := [nalpha w; nbeta w] in
  let rst_occ := aufbau <$> nelec in
  for_each (set_channel (nbf w) nelec) rst_occ occ.

(** Python compares the [(index, value)] tuples lexicographically. *)
Definition tuple_le (p q : Z * Q) : Prop :=
  p.1 < q.1 ∨ (p.1 = q.1 ∧ (p.2 <= q.2)%Q).

#[global] Instance Qle_dec : RelDecision Qle.
Proof. intros x y. unfold Qle. apply _. Defined.

#[global] Instance tuple_le_dec : RelDecision tuple_le.
Proof. intros p q. unfold tuple_le. apply _. Defined.

(** Lines 173-177: [list(d.items())], [sort], then [zip] over the
    unpacked pairs, bound to exactly two names.  [zip] of no arguments
    yields nothing, so the binding raises [ValueError] when the
    dictionary is empty. *)
Definition split_sorted (d : gmap Z Q) : result (list Z * list Q) :=
  let idx_occ := merge_sort tuple_le (map_to_list d) in
  match idx_occ with
  | [] => Raise ValueError
  | _ :: _ => OK (idx_occ.*1, idx_occ.*2)
  end.

(** Lines 170-181. *)
Definition finish (rst_occ : list (gmap Z Q))
  : result (list nat * list (list Z) * list (list Q)) :=
  cols ← map_each split_sorted rst_occ ;
  let occ_idx := cols.*1 in
  let occ_val := cols.*2 in
  let nocc := length <$> occ_idx in
  OK (nocc, occ_idx, occ_val).

Definition form_occ (w : wfn) (occ : overrides)
  : result (list nat * list (list Z) * list (list Q)) :=
  rst_occ ← apply_overrides w occ ;
  finish rst_occ.

End Occ.

(** ** form_occ over a store of dictionary objects

    The default argument [occ={}] of [form_occ] is one dictionary object,
    created when the function is defined and passed to every call that
    omits [occ].  This section keeps the dictionaries in a store, so that
    the writes of [form_occ] have an address: the argument dictionaries
    are read through their address, the two dictionaries of [rst_occ] are
    allocated by the call, and line 168 writes through the address held in
    [rst_occ]. *)

Module OccStore.
Import Occ.

Definition loc : Type := positive.

Inductive obj : Type :=
  | OOverrides (items : list (string * loc))  (* str -> inner mapping *)
  | OChannel (items : list (selector * Q))    (* selector -> number *)
  | OOcc (d : gmap Z Q).                      (* an element of rst_occ *)

Abbreviation store := (gmap loc obj).

(** A computation that reads and writes the store and may raise. *)
Definition st (A : Type) : Type := store → result A * store.

Definition ret {A} (a : A) : st A := λ h, (OK a, h).
Definition throw {A} (e : exn) : st A := λ h, (Raise e, h).
Definition bind {A B} (m : st A) (f : A → st B) : st B := λ h,
  match m h with
  | (OK a, h') => f a h'
  | (Raise e, h') => (Raise e, h')
  end.
Definition lift {A} (r : result A) : st A := λ h, (r, h).

(** A new object at an address not in use. *)
Definition alloc (o : obj) : st loc := λ h,
  let l := fresh (dom h) in (OK l, <[l := o]> h).

Definition read_overrides (l : loc) : st (list (string * loc)) := λ h,
  match h !! l with
  | Some (OOverrides items) => (OK items, h)
  | _ => (Raise AttributeError, h)
  end.

Definition read_channel (l : loc) : st (list (selector * Q)) := λ h,
  match h !! l with
  | Some (OChannel items) => (OK items, h)
  | _ => (Raise AttributeError, h)
  end.

Definition read_occ (l : loc) : st (gmap Z Q) := λ h,
  match h !! l with
  | Some (OOcc d) => (OK d, h)
  | _ => (Raise AttributeError, h)
  end.

(** [d[orb_i] = occ_i] on the dictionary at address [l]. *)
Definition write_occ (l : loc) (orb_i : Z) (occ_i : Q) : st unit := λ h,
  match h !! l with
  | Some (OOcc d) => (OK (), <[l := OOcc (<[orb_i := occ_i]> d)]> h)
  | _ => (Raise AttributeError, h)
  end.

Fixpoint iter {A} (body : A → st unit) (l : list A) : st unit :=
  match l with
  | [] => ret ()
  | x :: l' => bind (body x) (λ _, iter body l')
  end.

Fixpoint collect {A B} (f : A → st B) (l : list A) : st (list B) :=
  match l with
  | [] => ret []
  | x :: l' => bind (f x) (λ y, bind (collect f l') (λ ys, ret (y :: ys)))
  end.

(** Lines 155-168. *)
Definition set_occ (nbf : nat) (nelec : list nat) (rst_occ : list loc)
    (s : nat) (item : selector * Q) : st unit :=
  let '(orb_i, occ_i) := item in
  bind (lift (resolve nelec s orb_i)) (λ orb_i,
  if bool_decide (Z.of_nat nbf ≤ orb_i) then
    throw (IndexOutOfRange orb_i nbf)
  else if negb (occ_in_range occ_i) then
    throw (InvalidOccupation occ_i)
  else
    match rst_occ !! s with
    | Some l => write_occ l orb_i occ_i
    | None => throw IndexError
    end).

(** Lines 149-168. *)
Definition set_channel (nbf : nat) (nelec : list nat) (rst_occ : list loc)
    (kv : string * loc) : st unit :=
  let '(k, v) := kv in
  let k := lower k in
  match index_of k spin_chanel with
  | None => throw (InvalidChannel k)
  | Some s =>
      bind (read_channel v) (λ items,
      iter (set_occ nbf nelec rst_occ s) items)
  end.

(** Lines 145-181, with [occ] the address of the argument. *)
Definition form_occ_body (w : wfn) (occ : loc)
  : st (list nat * list (list Z) * list (list Q)) :=
  let nelec := [nalpha w; nbeta w] in
  bind (collect (λ n, alloc (OOcc (aufbau n))) nelec) (λ rst_occ,
  bind (read_overrides occ) (λ items,
  bind (iter (set_channel (nbf w) nelec rst_occ) items) (λ _,
  bind (collect (λ l, bind (read_occ l) (λ d, lift (split_sorted d)))
          rst_occ) (λ cols,
  let occ_idx := cols.*1 in
  let occ_val := cols.*2 in
  let nocc := length <$> occ_idx in
  ret (nocc, occ_idx, occ_val))))).

(** The interpreter state a call can see: the store and the address of
    the default-argument object of [form_occ]. *)
Record world : Type := World { objects : store; default_occ : loc }.

(** A call [form_occ(wfn)] ([arg = None]) or [form_occ(wfn, occ)]. *)
Definition call_form_occ (w : wfn) (arg : option loc) (pw : world)
  : result (list nat * list (list Z) * list (list Q)) * world :=
  let occ := default (default_occ pw) arg in
  let '(r, h) := form_occ_body w occ (objects pw) in
  (r, World h (default_occ pw)).

(** The nested mapping stored at [occ], as the lists [form_occ] iterates;
    [None] where the store does not hold such a mapping. *)
Definition snapshot (h : store) (occ : loc) : option overrides :=
  match h !! occ with
  | Some (OOverrides items) =>
      mapM (λ '(k, v),
              match h !! v with
              | Some (OChannel c) => Some (k, c)
              | _ => None
              end) items
  | _ => None
  end.

(** The store [h] with the two dictionaries of [rst_occ] at [l0], [l1]. *)
Definition with_rst (h : store) (l0 l1 : loc) (rst : list (gmap Z Q))
  : store :=
  match rst with
  | [d0; d1] => <[l1 := OOcc d1]> (<[l0 := OOcc d0]> h)
  | _ => h
  end.

(** The entries of the argument, as the store holds them. *)
Definition holds (h : store) (kv : string * loc)
    (kc : string * list (selector * Q)) : Prop :=
  kv.1 = kc.1 ∧ h !! kv.2 = Some (OChannel kc.2).

(** The outcome of a loop, without its state. *)
Definition void {A} (r : result A) : result unit :=
  match r with
  | OK _ => OK ()
  | Raise e => Raise e
  end.

End OccStore.

(** ** form_grid_lo and form_grid_w *)

Module Grid.

#[local] Open Scope nat_scope.

(** The grid loops place block after block at a running offset.
    [locate size blks i] is the block and the position inside it that an
    offset [i] falls into, for blocks of the sizes [size]. *)
Fixpoint locate {B} (size : B → nat) (blks : list B) (i : nat)
  : option (nat * nat) :=
  match blks with
  | [] => None
  | blk :: rest =>
      if decide (i < size blk) then Some (0, i)
      else (λ bj : nat * nat, (S bj.1, bj.2))
             <$> locate size rest (i - size blk)
  end.

Definition total {B} (size : B → nat) (blks : list B) : nat :=
  sum_list (size <$> blks).

(** Broadcasting a sequence of length [length src] to length [m]. *)
Definition broadcast {A} (src : list A) (m : nat) : result (list A) :=
  if bool_decide (length src = m) then OK src
  else match src with
       | [x] => OK (replicate m x)
       | _ => Raise ValueError
       end.

(** [dst[a:b] = src]: the slice is clipped to [dst], [src] is broadcast
    to the length of the slice. *)
Definition assign_slice {A} (dst : list A) (a b : nat) (src : list A)
  : result (list A) :=
  let lo := a `min` length dst in
  let hi := b `min` length dst in
  src' ← broadcast src (hi - lo) ;
  OK (take lo dst ++ src' ++ drop hi dst).

Section arrays.
Context {F : Type} (f0 : F) (fadd fmul : F → F → F).

(** A two-dimensional [numpy] array: its rows and the length of a row
    (which an array without rows still has). *)
Record matrix : Type := Matrix { ncols : nat; cells : list (list F) }.

Definition nrows (m : matrix) : nat := length (cells m).

Definition wf_matrix (m : matrix) : Prop :=
  Forall (λ r, length r = ncols m) (cells m).

(** [np.zeros((n, m))] *)
Definition zeros (n m : nat) : matrix :=
  Matrix m (replicate n (replicate m f0)).

(** [a[:r, :c]] *)
Definition slice2 (a : matrix) (r c : nat) : matrix :=
  Matrix (c `min` ncols a) (take c <$> take r (cells a)).

(** [a[idx, :]] with [idx = np.array(l)] for a list [l] of engine
    indices.  [np.array([])] is an array of floats, which is refused as
    an index; an index past the last row is refused too. *)
Definition take_rows (a : matrix) (idx : list nat) : result matrix :=
  match idx with
  | [] => Raise IndexError
  | _ :: _ =>
      rows ← map_each (λ i, match cells a !! i with
                            | Some r => OK r
                            | None => Raise IndexError
                            end) idx ;
      OK (Matrix (ncols a) rows)
  end.

(** One row of [a.dot(b)]: the sum of the rows of [b] scaled by the
    entries of the row of [a]. *)
Definition row_dot (n : nat) (r : list F) (b : list (list F)) : list F :=
  foldl (λ acc xb, zip_with fadd acc (fmul xb.1 <$> xb.2))
        (replicate n f0) (zip r b).

(** [a.dot(b)] for two-dimensional arrays. *)
Definition dot (a b : matrix) : result matrix :=
  if bool_decide (ncols a = nrows b) then
    OK (Matrix (ncols b) ((λ r, row_dot (ncols b) r (cells b)) <$> cells a))
  else Raise ValueError.

(** [blk = dst[a:b, :]; blk[:] = src]: the rows of [src] are broadcast
    to the row length of [dst], then assigned to the slice of rows. *)
Definition assign_rows (dst : matrix) (a b : nat) (src : matrix)
  : result matrix :=
  rows ← (if bool_decide (ncols src = ncols dst) then OK (cells src)
          else if bool_decide (ncols src = 1) then
            map_each (λ r, broadcast r (ncols dst)) (cells src)
          else Raise ValueError) ;
  rows' ← assign_slice (cells dst) a b rows ;
  OK (Matrix (ncols dst) rows').

(** A grid block: [block.npoints()], [block.w()],
    [block.functions_local_to_global()]. *)
Record block : Type :=
  Block { npoints : nat; w : list F; functions_local_to_global : list nat }.

(** [Vpot = wfn.V_potential()]: [Vpot.grid().npoints()], the blocks
    [Vpot.get_block(b)] for [b < Vpot.nblocks()], and [Vpot.properties()].
    A points function is represented by the array that
    [basis_values()["PHI"]] holds after [compute_points(block)]. *)
Record VBase : Type :=
  MkVBase { grid_npoints : nat;
            blocks : list block;
            properties : list (block → matrix) }.

(** [isinstance(wfn, psi4.core.HF)] and [wfn.V_potential()], which is
    [None] for a wavefunction without a density functional. *)
Record wfn : Type := Wfn { is_HF : bool; V_potential : option VBase }.

Definition wfn_type_msg : string :=
  "Unknown type of argument wfn. It has to be the type of psi4.core.HF.".

(** Lines 82-95: the rows computed for one block. *)
Definition block_lo (points_func : block → matrix) (C_lo : matrix)
    (blk : block) : result matrix :=
  let phi := points_func blk in
  let lpos := functions_local_to_global blk in
  let grid_ao := slice2 phi (npoints blk) (length lpos) in
  C_sub ← take_rows C_lo lpos ;
  dot grid_ao C_sub.

(** The rows that [form_grid_lo] computes for a block. *)
Definition block_rows (points_func : block → matrix) (C_lo : matrix)
    (blk : block) : list (list F) :=
  match block_lo points_func C_lo blk with
  | OK prod => cells prod
  | Raise _ => []
  end.

(** Lines 80-98: the body of the loop over the blocks. *)
Definition lo_step (points_func : block → matrix) (C_lo : matrix)
    (st : matrix * nat) (blk : block) : result (matrix * nat) :=
  let '(grid_lo, npts_count) := st in
  prod ← block_lo points_func C_lo blk ;
  grid_lo ← assign_rows grid_lo npts_count (npts_count + npoints blk) prod ;
  OK (grid_lo, npts_count + npoints blk).

Definition form_grid_lo (wf : wfn) (C_lo : matrix) : result matrix :=
  if negb (is_HF wf) then Raise (WfnTypeError wfn_type_msg) else
  match V_potential wf with
  | None => Raise AttributeError
  | Some Vpot =>
      let npts := grid_npoints Vpot in
      let nlo := ncols C_lo in
      match properties Vpot !! 0 with
      | None => Raise IndexError
      | Some points_func =>
          let grid_lo := zeros npts nlo in
          st ← for_each (lo_step points_func C_lo) (grid_lo, 0)
                 (blocks Vpot) ;
          OK st.1
      end
  end.

(** Lines 133-140: the body of the loop over the blocks. *)
Definition w_step (st : list F * nat) (blk : block)
  : result (list F * nat) :=
  let '(grid_w, npts_count) := st in
  grid_w ← assign_slice grid_w npts_count (npts_count + npoints blk)
             (w blk) ;
  OK (grid_w, npts_count + npoints blk).

Definition form_grid_w (wf : wfn) : result (list F) :=
  if negb (is_HF wf) then Raise (WfnTypeError wfn_type_msg) else
  match V_potential wf with
  | None => Raise AttributeError
  | Some Vpot =>
      let npts := grid_npoints Vpot in
      let grid_w := replicate npts f0 in
      st ← for_each w_step (grid_w, 0) (blocks Vpot) ;
      OK st.1
  end.

(** A block whose data agree with its point count and with [C_lo]: as
    many weights as points, at least one local function, every local
    function a row of [C_lo], and a [PHI] array that covers the points
    and the local functions of the block. *)
Definition block_ok (points_func : block → matrix) (C_lo : matrix)
    (blk : block) : Prop :=
  length (w blk) = npoints blk ∧
  functions_local_to_global blk ≠ [] ∧
  Forall (λ i, i < nrows C_lo) (functions_local_to_global blk) ∧
  npoints blk ≤ nrows (points_func blk) ∧
  length (functions_local_to_global blk) ≤ ncols (points_func blk) ∧
  wf_matrix (points_func blk).

(** A grid whose blocks partition its points. *)
Definition grid_ok (Vpot : VBase) (C_lo : matrix) : Prop :=
  total npoints (blocks Vpot) = grid_npoints Vpot ∧
  wf_matrix C_lo ∧
  ∃ points_func, properties Vpot !! 0 = Some points_func ∧
                 Forall (block_ok points_func C_lo) (blocks Vpot).

(** What the loops raise when the engine data do not fit. *)
Definition array_error (e : exn) : Prop :=
  e = ValueError ∨ e = IndexError.

End arrays.

(** A grid of three points in two blocks, over the integers. *)
Definition demo_phi : @matrix Z := Matrix 2 [[1; 0]; [0; 1]]%Z.
Definition demo_C : @matrix Z := Matrix 2 [[1; 2]; [3; 4]]%Z.
Definition demo_Vpot : @VBase Z :=
  MkVBase 3 [Block 2 [10; 20]%Z [0; 1]; Block 1 [30]%Z [1]]
          [λ _, demo_phi].

End Grid.

(** * Properties of form_occ *)

Module OccFacts.
Import Occ.

(** ** What the claims speak about *)

(** The override entries that name channel [s], in iteration order. *)
Definition channel_items (s : nat) (occ : overrides)
  : list (selector * Q) :=
  mjoin ((λ kv : string * list (selector * Q),
            if decide (index_of (lower kv.1) spin_chanel = Some s)
            then kv.2 else []) <$> occ).


(** The entries of one inner mapping, resolved for channel [s]. *)
Definition resolve_all (nelec : list nat) (s : nat)
    (v : list (selector * Q)) : list (Z * Q) :=
  omap (λ item : selector * Q,
          match resolve nelec s item.1 with
          | OK i => Some (i, item.2)
          | Raise _ => None
          end) v.

(** Well-formed override entries, in the words of the specification. *)
Definition valid_channel (k : string) : Prop :=
  lower k = "alpha"%string ∨ lower k = "beta"%string.

Definition valid_selector (sel : selector) : Prop :=
  match sel with
  | SInt _ => True
  | SStr str => lower str = "homo"%string ∨ lower str = "lumo"%string
  end.

Definition electron_count (w : wfn) (k : string) : nat :=
  if decide (lower k = "alpha"%string) then nalpha w else nbeta w.

Definition index_of_selector (n : nat) (sel : selector) : Z :=
  match sel with
  | SInt i => i
  | SStr str =>
      if decide (lower str = "homo"%string)
      then Z.of_nat n - 1 else Z.of_nat n
  end.

Definition valid_item (w : wfn) (k : string) (item : selector * Q)
  : Prop :=
  valid_selector item.1 ∧
  index_of_selector (electron_count w k) item.1 < Z.of_nat (nbf w) ∧
  (0 <= item.2 <= 1)%Q.

Definition valid_entry (w : wfn) (kv : string * list (selector * Q))
  : Prop :=
  valid_channel kv.1 ∧ Forall (valid_item w kv.1) kv.2.

(** The entries that name channel [s], resolved, in iteration order. *)
Definition resolved_items (w : wfn) (s : nat) (occ : overrides)
  : list (Z * Q) :=
  resolve_all [nalpha w; nbeta w] s (channel_items s occ).

(** The exceptions that lines 149-168 raise on purpose. *)
Definition validation_error (e : exn) : Prop :=
  match e with
  | InvalidChannel _ | UnknownIndex _
  | IndexOutOfRange _ _ | InvalidOccupation _ => True
  | _ => False
  end.

(** [d[i] = x] for every pair of [l], in order. *)
Definition write_all (d : gmap Z Q) (l : list (Z * Q)) : gmap Z Q :=
  foldl (λ d ix, <[ix.1 := ix.2]> d) d l.

(** A channel that ends without an orbital: no electron and no entry. *)
Definition empty_channel (w : wfn) (s : nat) (occ : overrides) : Prop :=
  nth s [nalpha w; nbeta w] 0%nat = 0%nat ∧ channel_items s occ = [].

(** The position in [spin_chanel] that a channel name stands for:
    alpha first, beta second. *)
Definition channel_of (k : string) : nat :=
  if decide (lower k = "alpha"%string) then 0%nat else 1%nat.

(** An override mapping with every channel name and every string
    selector in lower case.  The result is the item list of a mapping
    only when lower-casing merges no two keys, that is when
    [lower_keys_distinct] holds. *)
Definition lower_selector (sel : selector) : selector :=
  match sel with
  | SInt i => SInt i
  | SStr str => SStr (lower str)
  end.

Definition lower_keys (occ : overrides) : overrides :=
  (λ kv : string * list (selector * Q),
     (lower kv.1,
      (λ item : selector * Q, (lower_selector item.1, item.2)) <$> kv.2))
  <$> occ.

Definition lower_keys_distinct (occ : overrides) : Prop :=
  NoDup (lower_keys occ).*1 ∧
  Forall (λ kv : string * list (selector * Q), NoDup kv.2.*1)
         (lower_keys occ).

(** The dictionary of channel [s] once every override was written. *)
Definition channel_dict (w : wfn) (s : nat) (occ : overrides)
  : gmap Z Q :=
  write_all (aufbau (nth s [nalpha w; nbeta w] 0%nat))
            (resolved_items w s occ).

(** ** The loops *)

Lemma for_each_app {S A} (body : S → A → result S) st l1 l2 :
  for_each body st (l1 ++ l2) =
  st' ← for_each body st l1 ; for_each body st' l2.
Proof.
  revert st. induction l1 as [|x l1 IH]; intros st; simpl; [done|].
  destruct (body st x) as [st'|e]; simpl; [apply IH | done].
Qed.

Lemma for_each_cons_ok {S A} (body : S → A → result S) st x l st' :
  for_each body st (x :: l) = OK st' ↔
  ∃ st1, body st x = OK st1 ∧ for_each body st1 l = OK st'.
Proof.
  simpl. destruct (body st x) as [st1|e]; simpl.
  - split; [eauto|]. by intros (? & [= <-] & ?).
  - split; [done|]. by intros (? & ? & ?).
Qed.

(** ** The aufbau dictionary *)

Lemma aufbau_lookup n i x :
  aufbau n !! i = Some x ↔ (0 ≤ i < Z.of_nat n) ∧ x = 1%Q.
Proof.
  unfold aufbau. split.
  - intros H%elem_of_list_to_map_2.
    apply list_elem_of_fmap in H as (j & [= -> ->] & Hj).
    apply elem_of_seq in Hj. split; [lia | done].
  - intros [Hi ->]. apply elem_of_list_to_map_1.
    + rewrite <- list_fmap_compose. simpl.
      apply NoDup_fmap_2; [intros ?? Heq; simpl in Heq; lia | apply NoDup_seq].
    + apply list_elem_of_fmap. exists (Z.to_nat i). split.
      * f_equal. lia.
      * apply elem_of_seq. lia.
Qed.

Lemma aufbau_dom n i : i ∈ dom (aufbau n) ↔ 0 ≤ i < Z.of_nat n.
Proof.
  rewrite elem_of_dom. split.
  - intros [x H]. by apply aufbau_lookup in H as [? _].
  - intros H. exists 1%Q. by apply aufbau_lookup.
Qed.

Lemma write_all_dom d l :
  dom (write_all d l) = dom d ∪ list_to_set l.*1.
Proof.
  revert d. induction l as [|[i x] l IH]; intros d; simpl.
  - set_solver.
  - unfold write_all in *. simpl. rewrite IH, dom_insert_L. set_solver.
Qed.

Lemma write_all_app d l1 l2 :
  write_all d (l1 ++ l2) = write_all (write_all d l1) l2.
Proof. unfold write_all. apply foldl_app. Qed.

(** The last write to an index decides its value. *)
Lemma write_all_last d l1 l2 i x :
  i ∉ l2.*1 → write_all d (l1 ++ (i, x) :: l2) !! i = Some x.
Proof.
  rewrite write_all_app. simpl.
  generalize (write_all d l1). intros d'. revert d'.
  induction l2 as [|[j y] l2 IH]; intros d' Hi; simpl.
  - unfold write_all. simpl. apply lookup_insert_eq.
  - simpl in Hi. apply not_elem_of_cons in Hi as [Hij Hi].
    unfold write_all in *. simpl in *.
    rewrite (insert_insert_ne d') by done. by apply IH.
Qed.

Lemma write_all_other d l i : i ∉ l.*1 → write_all d l !! i = d !! i.
Proof.
  revert d. induction l as [|[j y] l IH]; intros d Hi; simpl; [done|].
  simpl in Hi. apply not_elem_of_cons in Hi as [Hij Hi].
  unfold write_all in *. simpl. rewrite IH by done.
  by apply lookup_insert_ne.
Qed.

(** ** The inner loop *)

Lemma occ_in_range_iff x : occ_in_range x = true ↔ (0 <= x <= 1)%Q.
Proof.
  unfold occ_in_range. rewrite andb_true_iff, !Qle_bool_iff. done.
Qed.

Lemma set_occ_ok nbf nelec s rst sel x rst' :
  set_occ nbf nelec s rst (sel, x) = OK rst' ↔
  ∃ i d, resolve nelec s sel = OK i ∧ i < Z.of_nat nbf ∧
         occ_in_range x = true ∧ rst !! s = Some d ∧
         rst' = <[s := <[i := x]> d]> rst.
Proof.
  unfold set_occ. split.
  - destruct (resolve nelec s sel) as [i|e]; simpl; [|done].
    case_bool_decide as Hi; [done|].
    destruct (occ_in_range x) eqn:Hx; simpl; [|done].
    destruct (rst !! s) as [d|] eqn:Hd; [|done].
    intros [= <-]. exists i, d. repeat split; [lia|done..].
  - intros (i & d & -> & Hi & -> & -> & ->). simpl.
    case_bool_decide; [lia | done].
Qed.

Lemma inner_loop_ok nbf nelec s v rst rst' :
  for_each (set_occ nbf nelec s) rst v = OK rst' →
  length rst' = length rst ∧
  ∀ s', rst' !! s' =
        if decide (s' = s)
        then (λ d, write_all d (resolve_all nelec s v)) <$> rst !! s'
        else rst !! s'.
Proof.
  revert rst. induction v as [|[sel x] v IH]; intros rst.
  - intros [= <-]. split; [done|]. intros s'. case_decide; [|done].
    by destruct (rst !! s').
  - intros (rst1 & H1 & H2)%for_each_cons_ok.
    apply set_occ_ok in H1 as (i & d & Hres & Hi & Hx & Hd & ->).
    apply IH in H2 as [Hlen Hlk]. rewrite length_insert in Hlen.
    split; [done|]. intros s'. rewrite Hlk.
    unfold resolve_all. simpl. rewrite Hres. simpl.
    case_decide as Hs.
    + subst s'. rewrite list_lookup_insert_eq, Hd; [done|].
      by eapply lookup_lt_Some.
    + by rewrite list_lookup_insert_ne.
Qed.

(** ** The outer loop *)

Lemma resolve_all_app nelec s v1 v2 :
  resolve_all nelec s (v1 ++ v2) =
  resolve_all nelec s v1 ++ resolve_all nelec s v2.
Proof. unfold resolve_all. apply omap_app. Qed.

Lemma channel_items_cons s k v occ :
  channel_items s ((k, v) :: occ) =
  (if decide (index_of (lower k) spin_chanel = Some s) then v else [])
  ++ channel_items s occ.
Proof. reflexivity. Qed.

Lemma outer_loop_ok nbf nelec occ rst rst' :
  for_each (set_channel nbf nelec) rst occ = OK rst' →
  length rst' = length rst ∧
  ∀ s, rst' !! s =
       (λ d, write_all d (resolve_all nelec s (channel_items s occ)))
         <$> rst !! s.
Proof.
  revert rst. induction occ as [|[k v] occ IH]; intros rst.
  - intros [= <-]. split; [done|]. intros s. by destruct (rst !! s).
  - intros (rst1 & H1 & H2)%for_each_cons_ok. unfold set_channel in H1.
    destruct (index_of (lower k) spin_chanel) as [s0|] eqn:Hk; [|done].
    apply inner_loop_ok in H1 as [Hlen1 Hlk1].
    apply IH in H2 as [Hlen Hlk]. split; [congruence|].
    intros s. rewrite Hlk, Hlk1, channel_items_cons.
    rewrite resolve_all_app, Hk.
    case_decide as Hs; case_decide as Hs'; try congruence.
    + subst s0. destruct (rst !! s); simpl; [|done].
      by rewrite write_all_app.
    + by destruct (rst !! s).
Qed.

(** The dictionaries that [apply_overrides] returns: the aufbau
    dictionary of each channel with the resolved entries of its channel
    written in iteration order. *)
Lemma apply_overrides_ok w occ rst :
  apply_overrides w occ = OK rst →
  rst = [channel_dict w 0 occ; channel_dict w 1 occ].
Proof.
  unfold apply_overrides, channel_dict. intros [Hlen Hlk]%outer_loop_ok.
  simpl in Hlen. pose proof (Hlk 0%nat) as H0. pose proof (Hlk 1%nat) as H1.
  destruct rst as [|d0 [|d1 [|??]]]; simplify_eq/=. done.
Qed.

(** ** Sorting and splitting *)

#[local] Instance tuple_le_trans : Transitive tuple_le.
Proof.
  intros [i x] [j y] [k z]. unfold tuple_le. simpl.
  intros [?|[-> Hxy]] [?|[-> Hyz]]; [left; lia.. |].
  right. split; [done|]. by eapply Qle_trans.
Qed.

#[local] Instance tuple_le_total : Total tuple_le.
Proof.
  intros [i x] [j y]. unfold tuple_le. simpl.
  destruct (Z.lt_trichotomy i j) as [?|[->|?]]; [by left; left | | by right; left].
  destruct (Qlt_le_dec x y) as [H|H].
  - left. right. split; [done|]. by apply Qlt_le_weak.
  - right. right. done.
Qed.

(** Tuples with pairwise different first components are sorted on the
    first component alone. *)
Lemma sorted_keys (l : list (Z * Q)) :
  StronglySorted tuple_le l → NoDup l.*1 → StronglySorted Z.lt l.*1.
Proof.
  induction 1 as [|[i x] l Hl IH Hall]; simpl; [constructor|].
  intros [Hi Hnd]%NoDup_cons. constructor; [by apply IH|].
  apply Forall_fmap, Forall_forall. intros [j y] Hj.
  rewrite Forall_forall in Hall. specialize (Hall _ Hj). simpl.
  destruct Hall as [?|[Heq _]]; simpl in *; [done|]. subst j.
  exfalso. apply Hi. apply list_elem_of_fmap. by exists (i, y).
Qed.

Lemma split_sorted_ok d li lv :
  split_sorted d = OK (li, lv) →
  d ≠ ∅ ∧ StronglySorted Z.lt li ∧ length lv = length li ∧
  (∀ i x, (i, x) ∈ zip li lv ↔ d !! i = Some x) ∧
  (∀ i, i ∈ li ↔ i ∈ dom d).
Proof.
  unfold split_sorted.
  pose proof (merge_sort_Permutation tuple_le (map_to_list d)) as Hp.
  pose proof (StronglySorted_merge_sort tuple_le (map_to_list d)) as Hs.
  revert Hp Hs. generalize (merge_sort tuple_le (map_to_list d)).
  intros l Hp Hs H.
  assert (l ≠ [] ∧ li = l.*1 ∧ lv = l.*2) as (Hne & -> & ->).
  { destruct l; [done|]. by simplify_eq. }
  clear H. split_and!.
  - intros ->. rewrite map_to_list_empty in Hp.
    by apply Permutation_nil_r in Hp.
  - apply sorted_keys; [done|]. rewrite Hp. apply NoDup_fst_map_to_list.
  - by rewrite !length_fmap.
  - intros i x. rewrite zip_fst_snd, Hp. apply elem_of_map_to_list.
  - intros i. rewrite Hp, elem_of_dom. split.
    + intros ([j x] & -> & H%elem_of_map_to_list)%list_elem_of_fmap. eauto.
    + intros [x H]. apply list_elem_of_fmap. exists (i, x).
      split; [done|]. by apply elem_of_map_to_list.
Qed.

Lemma split_sorted_raise d e :
  split_sorted d = Raise e ↔ d = ∅ ∧ e = ValueError.
Proof.
  unfold split_sorted.
  pose proof (merge_sort_Permutation tuple_le (map_to_list d)) as Hp.
  destruct (merge_sort tuple_le (map_to_list d)) as [|p l] eqn:Hm.
  - apply Permutation_nil_l in Hp. symmetry in Hp.
    apply map_to_list_empty_iff in Hp. split; [by intros [= <-]|].
    by intros [_ ->].
  - split; [done|]. intros [-> _]. rewrite map_to_list_empty in Hp.
    by apply Permutation_nil_r in Hp.
Qed.

Lemma split_sorted_total d :
  d ≠ ∅ → ∃ li lv, split_sorted d = OK (li, lv).
Proof.
  intros Hd. destruct (split_sorted d) as [[li lv]|e] eqn:H; [eauto|].
  by apply split_sorted_raise in H as [? _].
Qed.

(** [finish] on the two dictionaries of [rst_occ]. *)
Lemma finish_ok d0 d1 nocc idx val :
  finish [d0; d1] = OK (nocc, idx, val) ↔
  ∃ li0 lv0 li1 lv1,
    split_sorted d0 = OK (li0, lv0) ∧ split_sorted d1 = OK (li1, lv1) ∧
    nocc = [length li0; length li1] ∧ idx = [li0; li1] ∧ val = [lv0; lv1].
Proof.
  unfold finish. simpl.
  destruct (split_sorted d0) as [[li0 lv0]|e0]; simpl.
  2: { split; [done|]. by intros (?&?&?&?&?&?). }
  destruct (split_sorted d1) as [[li1 lv1]|e1]; simpl.
  2: { split; [done|]. by intros (?&?&?&?&?&?&?). }
  split.
  - intros [= <- <- <-]. by exists li0, lv0, li1, lv1.
  - by intros (?&?&?&?&[= <- <-]&[= <- <-]&->&->&->).
Qed.

Lemma finish_raise d0 d1 e :
  finish [d0; d1] = Raise e ↔ (d0 = ∅ ∨ d1 = ∅) ∧ e = ValueError.
Proof.
  unfold finish. simpl.
  destruct (split_sorted d0) as [[li0 lv0]|e0] eqn:H0; simpl.
  - apply split_sorted_ok in H0 as [Hne0 _].
    destruct (split_sorted d1) as [[li1 lv1]|e1] eqn:H1; simpl.
    + apply split_sorted_ok in H1 as [Hne1 _]. split; [done|].
      by intros [[?|?] _].
    + apply split_sorted_raise in H1 as [-> ->].
      split; [intros [= <-]; auto | by intros [_ ->]].
  - apply split_sorted_raise in H0 as [-> ->].
    split; [intros [= <-]; auto | by intros [_ ->]].
Qed.

Lemma write_all_empty d l : write_all d l = ∅ ↔ d = ∅ ∧ l = [].
Proof.
  split; [|by intros [-> ->]].
  intros H. pose proof (write_all_dom d l) as Hd. rewrite H, dom_empty_L in Hd.
  split.
  - apply dom_empty_iff_L. set_solver.
  - destruct l as [|[i x] l]; [done|]. simpl in Hd. set_solver.
Qed.

Lemma aufbau_empty n : aufbau n = ∅ ↔ n = 0%nat.
Proof.
  split; [|by intros ->].
  intros H. destruct n; [done|].
  assert (aufbau (S n) !! 0 = Some 1%Q) as H0
    by (apply aufbau_lookup; split; [lia | done]).
  by rewrite H in H0.
Qed.

(** ** Validation of the override entries *)

Lemma index_of_spin k s :
  index_of (lower k) spin_chanel = Some s ↔
  (lower k = "alpha"%string ∧ s = 0%nat) ∨
  (lower k = "beta"%string ∧ s = 1%nat).
Proof.
  unfold spin_chanel, index_of. repeat case_decide; simpl; split;
    intros; simplify_eq/=; try (destruct_or?; destruct_and?; congruence);
    auto.
Qed.

Lemma index_of_spin_None k :
  index_of (lower k) spin_chanel = None ↔ ¬ valid_channel k.
Proof.
  unfold spin_chanel, valid_channel, index_of.
  repeat case_decide; simpl; split; intros; try done; tauto.
Qed.

Lemma index_of_spin_count w k s :
  index_of (lower k) spin_chanel = Some s →
  [nalpha w; nbeta w] !! s = Some (electron_count w k).
Proof.
  unfold electron_count.
  intros [[Hk ->]|[Hk ->]]%index_of_spin; rewrite Hk; by case_decide.
Qed.

Lemma resolve_valid nelec s n sel :
  nelec !! s = Some n → valid_selector sel →
  resolve nelec s sel = OK (index_of_selector n sel).
Proof.
  intros Hn. destruct sel as [i|str]; simpl; [done|].
  intros Hv. rewrite Hn. rewrite bool_decide_true.
  - case_bool_decide; by case_decide.
  - destruct Hv as [-> | ->]; set_solver.
Qed.

Lemma resolve_invalid nelec s sel :
  ¬ valid_selector sel →
  ∃ str, sel = SStr str ∧
         resolve nelec s sel = Raise (UnknownIndex (lower str)).
Proof.
  destruct sel as [i|str]; simpl; [done|]. intros Hv.
  exists str. split; [done|]. rewrite bool_decide_false; [done|].
  intros H. apply Hv. set_solver.
Qed.

Lemma set_occ_valid w k s rst item :
  index_of (lower k) spin_chanel = Some s → length rst = 2%nat →
  valid_item w k item →
  ∃ rst', set_occ (nbf w) [nalpha w; nbeta w] s rst item = OK rst' ∧
          length rst' = 2%nat.
Proof.
  intros Hs Hlen (Hsel & Hi & Hx). destruct item as [sel x]. simpl in *.
  assert (s < length rst)%nat as [d Hd]%lookup_lt_is_Some.
  { apply index_of_spin in Hs. lia. }
  eexists. split.
  - apply set_occ_ok. eexists _, d. split_and!; [|exact Hi| |done|done].
    + eapply resolve_valid; [by apply index_of_spin_count | done].
    + by apply occ_in_range_iff.
  - by rewrite length_insert.
Qed.

Lemma inner_loop_valid w k s v rst :
  index_of (lower k) spin_chanel = Some s → length rst = 2%nat →
  Forall (valid_item w k) v →
  ∃ rst', for_each (set_occ (nbf w) [nalpha w; nbeta w] s) rst v = OK rst'
          ∧ length rst' = 2%nat.
Proof.
  intros Hs Hlen Hv. revert rst Hlen.
  induction Hv as [|item v Hitem _ IH]; intros rst Hlen; [by eexists|].
  destruct (set_occ_valid w k s rst item) as (rst1 & H1 & Hlen1); [done..|].
  destruct (IH rst1 Hlen1) as (rst' & H2 & Hlen2).
  exists rst'. split; [|done]. apply for_each_cons_ok. eauto.
Qed.

Lemma outer_loop_valid w occ rst :
  length rst = 2%nat → Forall (valid_entry w) occ →
  ∃ rst', for_each (set_channel (nbf w) [nalpha w; nbeta w]) rst occ
          = OK rst' ∧ length rst' = 2%nat.
Proof.
  intros Hlen Hv. revert rst Hlen.
  induction Hv as [|[k v] occ [Hk Hitems] _ IH]; intros rst Hlen;
    [by eexists|]. simpl in Hk, Hitems.
  destruct (index_of (lower k) spin_chanel) as [s|] eqn:Hs.
  2: { by apply index_of_spin_None in Hs. }
  destruct (inner_loop_valid w k s v rst) as (rst1 & H1 & Hlen1); [done..|].
  destruct (IH rst1 Hlen1) as (rst' & H2 & Hlen2).
  exists rst'. split; [|done]. apply for_each_cons_ok.
  exists rst1. split; [|done]. unfold set_channel. by rewrite Hs.
Qed.

(** A set of well-formed entries passes the validation loop. *)
Lemma apply_overrides_valid w occ :
  Forall (valid_entry w) occ → ∃ rst, apply_overrides w occ = OK rst.
Proof.
  intros Hv. unfold apply_overrides.
  destruct (outer_loop_valid w occ (aufbau <$> [nalpha w; nbeta w]))
    as (rst & H & _); [done..|]. eauto.
Qed.

(** The first entry with a bad channel name stops the call. *)
Lemma form_occ_bad_channel w pre k v post :
  Forall (valid_entry w) pre → ¬ valid_channel k →
  form_occ w (pre ++ (k, v) :: post) = Raise (InvalidChannel (lower k)).
Proof.
  intros Hpre Hk. unfold form_occ, apply_overrides.
  rewrite for_each_app.
  destruct (outer_loop_valid w pre (aufbau <$> [nalpha w; nbeta w]))
    as (rst & -> & _); [done..|].
  simpl. apply index_of_spin_None in Hk. unfold set_channel. by rewrite Hk.
Qed.

(** The first malformed entry of a channel stops the call, with the
    exception of the first check it fails. *)
Lemma form_occ_bad_item w pre k vpre sel x vpost post :
  Forall (valid_entry w) pre → valid_channel k →
  Forall (valid_item w k) vpre →
  let i := index_of_selector (electron_count w k) sel in
  let r := form_occ w (pre ++ (k, vpre ++ (sel, x) :: vpost) :: post) in
  (¬ valid_selector sel →
     ∃ str, sel = SStr str ∧ r = Raise (UnknownIndex (lower str))) ∧
  (valid_selector sel → Z.of_nat (nbf w) ≤ i →
     r = Raise (IndexOutOfRange i (nbf w))) ∧
  (valid_selector sel → i < Z.of_nat (nbf w) → ¬ (0 <= x <= 1)%Q →
     r = Raise (InvalidOccupation x)).
Proof.
  intros Hpre Hk Hvpre i r.
  destruct (index_of (lower k) spin_chanel) as [s|] eqn:Hs.
  2: { by apply index_of_spin_None in Hs. }
  assert (∀ e, (∀ rst, length rst = 2%nat →
                  set_occ (nbf w) [nalpha w; nbeta w] s rst (sel, x)
                  = Raise e) → r = Raise e) as Hstep.
  { intros e He. unfold r, form_occ, apply_overrides.
    rewrite for_each_app.
    destruct (outer_loop_valid w pre (aufbau <$> [nalpha w; nbeta w]))
      as (rst & -> & Hlen); [done..|].
    simpl. unfold set_channel at 1. rewrite Hs, for_each_app.
    destruct (inner_loop_valid w k s vpre rst) as (rst1 & -> & Hlen1);
      [done..|].
    cbn [mbind result_bind for_each]. by rewrite He. }
  pose proof (index_of_spin_count w k s Hs) as Hn.
  split_and!.
  - intros (str & -> & Hr)%(resolve_invalid [nalpha w; nbeta w] s).
    exists str. split; [done|]. apply Hstep. intros rst _.
    unfold set_occ. by rewrite Hr.
  - intros Hsel Hi. apply Hstep. intros rst _. unfold set_occ.
    rewrite (resolve_valid _ _ _ _ Hn Hsel). simpl.
    by rewrite bool_decide_true.
  - intros Hsel Hi Hx. apply Hstep. intros rst _. unfold set_occ.
    rewrite (resolve_valid _ _ _ _ Hn Hsel). simpl.
    rewrite bool_decide_false by (fold i; lia).
    destruct (occ_in_range x) eqn:Hr; [|done].
    by apply occ_in_range_iff in Hr.
Qed.

(** ** What a passed validation says about the entries *)

Lemma set_occ_raise nbf nelec s rst item e :
  is_Some (nelec !! s) → is_Some (rst !! s) →
  set_occ nbf nelec s rst item = Raise e → validation_error e.
Proof.
  intros [n Hn] [d Hd]. destruct item as [sel x]. unfold set_occ.
  destruct (resolve nelec s sel) as [i|e'] eqn:Hr; simpl.
  - repeat case_match; try done; by intros [= <-].
  - intros [= <-]. destruct sel as [i|str]; simpl in Hr; [done|].
    rewrite Hn in Hr. repeat case_match; by simplify_eq.
Qed.

Lemma inner_loop_raise nbf nelec s v rst e :
  is_Some (nelec !! s) → is_Some (rst !! s) →
  for_each (set_occ nbf nelec s) rst v = Raise e → validation_error e.
Proof.
  intros Hn. revert rst. induction v as [|item v IH]; intros rst Hd; [done|].
  cbn [for_each].
  destruct (set_occ nbf nelec s rst item) as [rst1|e1] eqn:H1;
    cbn [mbind result_bind].
  - apply IH. destruct item as [sel x].
    apply set_occ_ok in H1 as (i & d & _ & _ & _ & Hs & ->).
    apply lookup_lt_is_Some. rewrite length_insert.
    by eapply lookup_lt_Some.
  - intros [= <-]. by eapply set_occ_raise.
Qed.

Lemma outer_loop_raise nbf na nb occ rst e :
  length rst = 2%nat →
  for_each (set_channel nbf [na; nb]) rst occ = Raise e →
  validation_error e.
Proof.
  revert rst. induction occ as [|[k v] occ IH]; intros rst Hlen; [done|].
  cbn [for_each].
  destruct (set_channel nbf [na; nb] rst (k, v)) as [rst1|e1] eqn:H1;
    cbn [mbind result_bind].
  - apply IH. unfold set_channel in H1.
    destruct (index_of (lower k) spin_chanel); [|done].
    apply inner_loop_ok in H1 as [? _]. congruence.
  - intros [= <-]. unfold set_channel in H1.
    destruct (index_of (lower k) spin_chanel) as [s|] eqn:Hs.
    + assert (s < 2)%nat by (apply index_of_spin in Hs; lia).
      eapply inner_loop_raise; [| |exact H1]; apply lookup_lt_is_Some;
        simpl; lia.
    + by simplify_eq.
Qed.

(** The validation loop raises nothing but its four exceptions. *)
Lemma apply_overrides_raise w occ e :
  apply_overrides w occ = Raise e → validation_error e.
Proof. unfold apply_overrides. by apply outer_loop_raise. Qed.

Lemma set_occ_ok_valid w k s rst item rst' :
  index_of (lower k) spin_chanel = Some s →
  set_occ (nbf w) [nalpha w; nbeta w] s rst item = OK rst' →
  valid_item w k item.
Proof.
  intros Hs. destruct item as [sel x].
  intros (i & d & Hr & Hi & Hx & _)%set_occ_ok.
  pose proof (index_of_spin_count w k s Hs) as Hn.
  assert (valid_selector sel) as Hsel.
  { destruct sel as [j|str]; simpl; [done|]. simpl in Hr.
    case_bool_decide as Hin; [|done]. set_solver. }
  rewrite (resolve_valid _ _ _ _ Hn Hsel) in Hr. simplify_eq.
  split; [done|]. split; [done|]. by apply occ_in_range_iff.
Qed.

Lemma inner_loop_ok_valid w k s v rst rst' :
  index_of (lower k) spin_chanel = Some s →
  for_each (set_occ (nbf w) [nalpha w; nbeta w] s) rst v = OK rst' →
  Forall (valid_item w k) v.
Proof.
  intros Hs. revert rst. induction v as [|item v IH]; intros rst; [done|].
  intros (rst1 & H1 & H2)%for_each_cons_ok. constructor.
  - by eapply set_occ_ok_valid.
  - by eapply IH.
Qed.

(** Only a set of well-formed entries passes the validation loop. *)
Lemma apply_overrides_ok_valid w occ rst :
  apply_overrides w occ = OK rst → Forall (valid_entry w) occ.
Proof.
  unfold apply_overrides. generalize (aufbau <$> [nalpha w; nbeta w]).
  induction occ as [|[k v] occ IH]; intros rst0; [done|].
  intros (rst1 & H1 & H2)%for_each_cons_ok. constructor; [|by eapply IH].
  unfold set_channel in H1.
  destruct (index_of (lower k) spin_chanel) as [s|] eqn:Hs; [|done].
  split; simpl.
  - apply index_of_spin in Hs. unfold valid_channel. tauto.
  - by eapply inner_loop_ok_valid.
Qed.

Lemma elem_of_channel_items s occ item :
  item ∈ channel_items s occ ↔
  ∃ k v, (k, v) ∈ occ ∧ index_of (lower k) spin_chanel = Some s ∧ item ∈ v.
Proof.
  unfold channel_items. rewrite list_elem_of_join. split.
  - intros (l & Hitem & ([k v] & -> & Hkv)%list_elem_of_fmap).
    simpl in Hitem. case_decide; [|by apply elem_of_nil in Hitem]. eauto.
  - intros (k & v & Hkv & Hs & Hitem). exists v. split; [done|].
    apply list_elem_of_fmap. exists (k, v). simpl.
    by rewrite decide_True.
Qed.

(** After a passed validation every entry of a channel was resolved. *)
Lemma resolved_items_valid w s occ :
  Forall (valid_entry w) occ →
  resolved_items w s occ =
  (λ item : selector * Q,
     (index_of_selector (nth s [nalpha w; nbeta w] 0%nat) item.1, item.2))
  <$> channel_items s occ.
Proof.
  intros Hv. unfold resolved_items, resolve_all.
  assert (Forall (λ item : selector * Q,
            resolve [nalpha w; nbeta w] s item.1 =
            OK (index_of_selector (nth s [nalpha w; nbeta w] 0%nat) item.1))
          (channel_items s occ)) as Hall.
  { apply Forall_forall. intros item (k & v & Hkv & Hs & Hitem)
      %elem_of_channel_items.
    rewrite Forall_forall in Hv. destruct (Hv _ Hkv) as [_ Hitems].
    rewrite Forall_forall in Hitems. destruct (Hitems _ Hitem) as [Hsel _].
    apply resolve_valid; [|done].
    apply index_of_spin in Hs as [[_ ->]|[_ ->]]; done. }
  induction Hall as [|item l Hitem _ IH]; [done|].
  simpl. rewrite Hitem. simpl. f_equal. exact IH.
Qed.

(** A sorted list starts with its least element. *)
Lemma sorted_head (l : list Z) i :
  StronglySorted Z.lt l → i ∈ l → (∀ j, j ∈ l → i ≤ j) → head l = Some i.
Proof.
  intros Hs Hi Hmin. destruct l as [|h l]; [by apply elem_of_nil in Hi|].
  simpl. f_equal. apply StronglySorted_cons in Hs as [Hall _].
  apply elem_of_cons in Hi as [->|Hi]; [done|].
  rewrite Forall_forall in Hall. specialize (Hall _ Hi).
  specialize (Hmin h). rewrite elem_of_cons in Hmin. lia.
Qed.

(** ** The result of a call *)

Lemma form_occ_ok w occ nocc idx val :
  form_occ w occ = OK (nocc, idx, val) ↔
  ∃ li0 lv0 li1 lv1,
    apply_overrides w occ = OK [channel_dict w 0 occ; channel_dict w 1 occ] ∧
    split_sorted (channel_dict w 0 occ) = OK (li0, lv0) ∧
    split_sorted (channel_dict w 1 occ) = OK (li1, lv1) ∧
    nocc = [length li0; length li1] ∧ idx = [li0; li1] ∧ val = [lv0; lv1].
Proof.
  unfold form_occ. split.
  - destruct (apply_overrides w occ) as [rst|e] eqn:Ha; [|done].
    rewrite (apply_overrides_ok _ _ _ Ha). cbn [mbind result_bind].
    intros (li0 & lv0 & li1 & lv1 & H)%finish_ok.
    exists li0, lv0, li1, lv1. split; [|exact H]. done.
  - intros (li0 & lv0 & li1 & lv1 & -> & H). cbn [mbind result_bind].
    apply finish_ok. by exists li0, lv0, li1, lv1.
Qed.

Lemma channel_items_nil_resolved w s occ :
  Forall (valid_entry w) occ →
  resolved_items w s occ = [] ↔ channel_items s occ = [].
Proof.
  intros Hv. rewrite (resolved_items_valid _ _ _ Hv).
  split; [apply fmap_nil_inv | by intros ->].
Qed.

Lemma channel_dict_empty w s occ :
  Forall (valid_entry w) occ →
  channel_dict w s occ = ∅ ↔
  nth s [nalpha w; nbeta w] 0%nat = 0%nat ∧ channel_items s occ = [].
Proof.
  intros Hv. unfold channel_dict.
  by rewrite write_all_empty, aufbau_empty, channel_items_nil_resolved.
Qed.

(** A set of well-formed entries yields a result exactly when neither
    channel ends without an orbital; otherwise line 175 raises. *)
Lemma form_occ_valid_outcome w occ :
  Forall (valid_entry w) occ →
  let empty s :=
    nth s [nalpha w; nbeta w] 0%nat = 0%nat ∧ channel_items s occ = [] in
  (empty 0%nat ∨ empty 1%nat → form_occ w occ = Raise ValueError) ∧
  (¬ empty 0%nat → ¬ empty 1%nat → ∃ res, form_occ w occ = OK res).
Proof.
  intros Hv empty. destruct (apply_overrides_valid w occ Hv) as [rst Ha].
  pose proof (apply_overrides_ok _ _ _ Ha) as ->. split.
  - intros He. unfold form_occ. rewrite Ha. cbn [mbind result_bind].
    apply finish_raise. split; [|done].
    destruct He as [He|He]; [left|right]; by apply channel_dict_empty.
  - intros H0 H1.
    destruct (split_sorted_total (channel_dict w 0 occ)) as (li0 & lv0 & E0).
    { by rewrite channel_dict_empty. }
    destruct (split_sorted_total (channel_dict w 1 occ)) as (li1 & lv1 & E1).
    { by rewrite channel_dict_empty. }
    eexists (_, _, _). apply form_occ_ok. by exists li0, lv0, li1, lv1.
Qed.

(** A call raises one of the four validation exceptions exactly when
    some entry is malformed. *)
Lemma form_occ_validation_error w occ :
  (∃ e, form_occ w occ = Raise e ∧ validation_error e) ↔
  ¬ Forall (valid_entry w) occ.
Proof.
  split.
  - intros (e & He & Hk) Hv.
    destruct (form_occ_valid_outcome w occ Hv) as [H1 H2].
    unfold form_occ in He.
    destruct (apply_overrides_valid w occ Hv) as [rst Ha].
    rewrite Ha in He. cbn [mbind result_bind] in He.
    rewrite (apply_overrides_ok _ _ _ Ha) in He.
    apply finish_raise in He as [_ ->]. done.
  - intros Hv. unfold form_occ.
    destruct (apply_overrides w occ) as [rst|e] eqn:Ha.
    + by apply apply_overrides_ok_valid in Ha.
    + exists e. split; [done|]. by eapply apply_overrides_raise.
Qed.

Lemma sorted_seq a n : StronglySorted lt (seq a n).
Proof.
  revert a. induction n as [|n IH]; intros a; simpl; constructor.
  - apply IH.
  - apply Forall_forall. intros j Hj%elem_of_seq. lia.
Qed.

Lemma sorted_seqZ n : StronglySorted Z.lt (seqZ 0 (Z.of_nat n)).
Proof.
  unfold seqZ. rewrite Nat2Z.id.
  apply (StronglySorted_fmap _ lt); [intros; lia | apply sorted_seq].
Qed.

Lemma sorted_NoDup (l : list Z) : StronglySorted Z.lt l → NoDup l.
Proof.
  induction 1 as [|i l _ IH Hall]; constructor; [|done].
  intros Hi. rewrite Forall_forall in Hall. specialize (Hall _ Hi). lia.
Qed.

(** With no override and electrons in both channels the result is the
    aufbau occupation. *)
Lemma split_sorted_aufbau n :
  (0 < n)%nat →
  split_sorted (aufbau n) = OK (seqZ 0 (Z.of_nat n), replicate n 1%Q).
Proof.
  intros Hn.
  destruct (split_sorted_total (aufbau n)) as (li & lv & E).
  { rewrite aufbau_empty. lia. }
  rewrite E. apply split_sorted_ok in E as (_ & Hs & Hlen & Hzip & Hdom).
  assert (li = seqZ 0 (Z.of_nat n)) as ->.
  { apply (StronglySorted_unique_strong Z.lt); [intros; lia|done| |].
    - apply sorted_seqZ.
    - apply NoDup_Permutation.
      + by apply sorted_NoDup.
      + apply NoDup_seqZ.
      + intros i. rewrite Hdom, aufbau_dom, elem_of_seqZ. lia. }
  f_equal. f_equal. symmetry. apply replicate_as_Forall_2.
  - rewrite Hlen, length_seqZ. lia.
  - apply Forall_forall. intros x Hx.
    apply list_elem_of_lookup in Hx as [j Hj].
    assert (is_Some (seqZ 0 (Z.of_nat n) !! j)) as [i Hi].
    { apply lookup_lt_is_Some. rewrite <- Hlen. by eapply lookup_lt_Some. }
    assert ((i, x) ∈ zip (seqZ 0 (Z.of_nat n)) lv) as Hin.
    { apply list_elem_of_lookup. exists j.
      apply lookup_zip_with_Some. eauto. }
    apply Hzip, aufbau_lookup in Hin as [_ ->]. done.
Qed.

Lemma form_occ_default_occupied w :
  (0 < nalpha w)%nat → (0 < nbeta w)%nat →
  form_occ w [] =
  OK ([nalpha w; nbeta w],
      [seqZ 0 (Z.of_nat (nalpha w)); seqZ 0 (Z.of_nat (nbeta w))],
      [replicate (nalpha w) 1%Q; replicate (nbeta w) 1%Q]).
Proof.
  intros Ha Hb. apply form_occ_ok.
  eexists _, _, _, _. split_and!; [done| | |..].
  - by apply split_sorted_aufbau.
  - by apply split_sorted_aufbau.
  - simpl. rewrite !length_seqZ. f_equal; [|f_equal]; lia.
  - done.
  - done.
Qed.

Lemma form_occ_channel w occ nocc idx val s :
  form_occ w occ = OK (nocc, idx, val) → (s < 2)%nat →
  ∃ li lv, idx !! s = Some li ∧ val !! s = Some lv ∧
           nocc !! s = Some (length li) ∧
           split_sorted (channel_dict w s occ) = OK (li, lv).
Proof.
  intros (li0 & lv0 & li1 & lv1 & _ & E0 & E1 & -> & -> & ->)%form_occ_ok Hs.
  destruct s as [|[|s]]; [| |lia].
  - by exists li0, lv0.
  - by exists li1, lv1.
Qed.

Lemma channel_dict_dom w s occ i :
  i ∈ dom (channel_dict w s occ) ↔
  0 ≤ i < Z.of_nat (nth s [nalpha w; nbeta w] 0%nat) ∨
  i ∈ (resolved_items w s occ).*1.
Proof.
  unfold channel_dict.
  rewrite write_all_dom, elem_of_union, aufbau_dom, elem_of_list_to_set.
  done.
Qed.

(** An orbital that no entry of the channel names keeps its aufbau
    value; an orbital that entries name has the value of the last one. *)
Lemma form_occ_untouched w occ nocc idx val s i :
  form_occ w occ = OK (nocc, idx, val) → (s < 2)%nat →
  0 ≤ i < Z.of_nat (nth s [nalpha w; nbeta w] 0%nat) →
  i ∉ (resolved_items w s occ).*1 →
  ∃ li lv, idx !! s = Some li ∧ val !! s = Some lv ∧
           (i, 1%Q) ∈ zip li lv.
Proof.
  intros Hok Hs Hi Hni.
  destruct (form_occ_channel _ _ _ _ _ s Hok Hs)
    as (li & lv & Hli & Hlv & _ & Hsplit).
  apply split_sorted_ok in Hsplit as (_ & _ & _ & Hzip & _).
  exists li, lv. split_and!; [done..|]. apply Hzip. unfold channel_dict.
  rewrite write_all_other by done. by apply aufbau_lookup.
Qed.

Lemma form_occ_last_write w occ nocc idx val s l1 i x l2 :
  form_occ w occ = OK (nocc, idx, val) → (s < 2)%nat →
  resolved_items w s occ = l1 ++ (i, x) :: l2 → i ∉ l2.*1 →
  ∃ li lv, idx !! s = Some li ∧ val !! s = Some lv ∧ (i, x) ∈ zip li lv.
Proof.
  intros Hok Hs Hres Hni.
  destruct (form_occ_channel _ _ _ _ _ s Hok Hs)
    as (li & lv & Hli & Hlv & _ & Hsplit).
  apply split_sorted_ok in Hsplit as (_ & _ & _ & Hzip & _).
  exists li, lv. split_and!; [done..|]. apply Hzip. unfold channel_dict.
  rewrite Hres. by apply write_all_last.
Qed.

Lemma index_of_channel_of k :
  valid_channel k → index_of (lower k) spin_chanel = Some (channel_of k).
Proof.
  intros Hk. apply index_of_spin. unfold channel_of.
  destruct Hk as [Hk|Hk]; rewrite Hk; [by left | by right].
Qed.

(** The last pair with a given index in a list of pairs. *)
Lemma last_occurrence (l : list (Z * Q)) i :
  i ∈ l.*1 → ∃ l1 y l2, l = l1 ++ (i, y) :: l2 ∧ i ∉ l2.*1.
Proof.
  induction l as [|[j z] l IH]; simpl; [by intros ?%elem_of_nil|].
  intros Hi. destruct (decide (i ∈ l.*1)) as [Hin|Hni].
  - destruct (IH Hin) as (l1 & y & l2 & -> & Hl2).
    by exists ((j, z) :: l1), y, l2.
  - apply elem_of_cons in Hi as [->|Hi]; [|done].
    by exists [], z, l.
Qed.

(** ** The claims about form_occ *)

(** C1 (each override entry raises exactly when it is malformed, and a
    well-formed override set raises nothing and yields a result).  The
    second half fails: for a wavefunction with one alpha electron and no
    beta electron the override alpha: homo: 1/2 is well-formed, and the
    call raises [ValueError] at the two-name binding of line 175, because
    the beta dictionary is empty.  The first half holds, see
    [form_occ_validation_error], [form_occ_bad_channel] and
    [form_occ_bad_item]. *)
Theorem form_occ_wellformed_raises :
  let w := Wfn 2 1 0 in
  let occ := [("alpha"%string, [(SStr "homo", (1#2)%Q)])] in
  Forall (valid_entry w) occ ∧ form_occ w occ = Raise ValueError.
Proof.
  split; [|by vm_compute].
  apply Forall_cons. split; [|by apply Forall_nil].
  split; [by left|]. apply Forall_cons. split; [|by apply Forall_nil].
  split; [by left|]. split; [by vm_compute|].
  split; by vm_compute.
Qed.

(** C2 (homo resolves to electron_count - 1 and lumo to electron_count
    of the named channel, both names matched case-insensitively: after
    every successful call, an entry homo or lumo of a channel puts that
    index into the index list of the channel it names, with the value of
    the entry unless another entry of the channel resolving to the same
    orbital carries a different value; the example with five alpha and
    five beta electrons, ten basis functions and the override alpha:
    homo: 0.5, lumo: 0.3 resolves to the indices 0..5 with values
    1,1,1,1,0.5,0.3 for alpha and 0..4 with value 1 for beta). *)
Theorem form_occ_homo_lumo :
  (∀ w occ nocc idx val k v str x,
     form_occ w occ = OK (nocc, idx, val) →
     (k, v) ∈ occ → (SStr str, x) ∈ v →
     let n := Z.of_nat (electron_count w k) in
     let i := if decide (lower str = "homo"%string) then n - 1 else n in
     (lower str = "homo"%string ∨ lower str = "lumo"%string) ∧
     ∃ li lv,
       idx !! channel_of k = Some li ∧ val !! channel_of k = Some lv ∧
       i ∈ li ∧
       ((∀ k' v' sel y,
           (k', v') ∈ occ → (sel, y) ∈ v' →
           channel_of k' = channel_of k →
           index_of_selector (electron_count w k') sel = i → y = x) →
        (i, x) ∈ zip li lv)) ∧
  form_occ (Wfn 10 5 5)
    [("alpha"%string, [(SStr "homo", (1#2)%Q); (SStr "lumo", (3#10)%Q)])]
  = OK ([6; 5]%nat,
        [[0; 1; 2; 3; 4; 5]; [0; 1; 2; 3; 4]],
        [[1; 1; 1; 1; 1#2; 3#10]; [1; 1; 1; 1; 1]]%Q).
Proof.
  split; [|by vm_compute].
  intros w occ nocc idx val k v str x Hok Hkv Hv n i.
  assert (Forall (valid_entry w) occ) as Hvalid.
  { apply form_occ_ok in Hok as (?&?&?&?& Ha & _).
    by eapply apply_overrides_ok_valid. }
  pose proof Hvalid as Hall. rewrite Forall_forall in Hall.
  destruct (Hall _ Hkv) as [Hk Hitems]. simpl in Hk, Hitems.
  rewrite Forall_forall in Hitems.
  destruct (Hitems _ Hv) as (Hsel & _ & _). simpl in Hsel.
  split; [done|].
  pose proof (index_of_channel_of k Hk) as Hs.
  assert (channel_of k < 2)%nat as Hs2 by (apply index_of_spin in Hs; lia).
  destruct (form_occ_channel _ _ _ _ _ _ Hok Hs2)
    as (li & lv & Hli & Hlv & _ & Hsplit).
  apply split_sorted_ok in Hsplit as (_ & _ & _ & Hzip & Hdom).
  assert ((i, x) ∈ resolved_items w (channel_of k) occ) as Hres.
  { apply list_elem_of_omap. exists (SStr str, x). split.
    - apply elem_of_channel_items. eauto.
    - cbn [fst snd].
      by rewrite (resolve_valid _ _ _ (SStr str)
                    (index_of_spin_count w k _ Hs) Hsel). }
  exists li, lv. split_and!; [done..| |].
  - apply Hdom, channel_dict_dom. right.
    apply list_elem_of_fmap. by exists (i, x).
  - intros Hsame. apply Hzip. unfold channel_dict.
    destruct (last_occurrence (resolved_items w (channel_of k) occ) i)
      as (l1 & y & l2 & Hl & Hni).
    { apply list_elem_of_fmap. by exists (i, x). }
    rewrite Hl. rewrite write_all_last by done. f_equal.
    assert ((i, y) ∈ resolved_items w (channel_of k) occ) as Hy.
    { rewrite Hl. apply elem_of_app. right. apply list_elem_of_here. }
    rewrite (resolved_items_valid _ _ _ Hvalid) in Hy.
    apply list_elem_of_fmap in Hy as ([sel y'] & [= Hi ->] & Hin).
    apply elem_of_channel_items in Hin as (k' & v' & Hkv' & Hs' & Hin).
    apply (Hsame k' v' sel y' Hkv' Hin).
    + destruct (Hall _ Hkv') as [Hk' _]. simpl in Hk'.
      pose proof (index_of_channel_of k' Hk') as Hc. congruence.
    + rewrite Hi. f_equal.
      pose proof (index_of_spin_count w k' _ Hs') as Hn.
      apply index_of_spin in Hs' as [[_ Heq]|[_ Heq]]; rewrite Heq in Hn |- *;
        simpl in Hn |- *; by injection Hn as ->.
Qed.

Lemma form_occ_homo_lumo_witness :
  ("hOmO"%string = "homo"%string → False) ∧
  (lower "hOmO" = "homo"%string ∨ lower "hOmO" = "lumo"%string) ∧
  ∃ li lv,
    [[0; 1; 2]; [0; 1; 2]] !! channel_of "Beta" = Some li ∧
    [[1; 1; 1]; [1; 1#2; 1#3]]%Q !! channel_of "Beta" = Some lv ∧
    1 ∈ li ∧ (1, (1#2)%Q) ∈ zip li lv.
Proof.
  split; [discriminate|].
  destruct (proj1 form_occ_homo_lumo (Wfn 7 3 2)
              [("Beta"%string,
                [(SStr "hOmO", (1#2)%Q); (SStr "LUMO", (1#3)%Q)])]
              [3; 3]%nat [[0; 1; 2]; [0; 1; 2]]
              [[1; 1; 1]; [1; 1#2; 1#3]]%Q
              "Beta"%string
              [(SStr "hOmO", (1#2)%Q); (SStr "LUMO", (1#3)%Q)]
              "hOmO"%string (1#2)%Q)
    as (Hname & li & lv & Hli & Hlv & Hin & Hval).
  - vm_compute. reflexivity.
  - apply list_elem_of_here.
  - apply list_elem_of_here.
  - split; [exact Hname|]. exists li, lv.
    split; [exact Hli|]. split; [exact Hlv|]. split; [exact Hin|].
    apply Hval. intros k' v' sel y Hkv' Hsel _ Hi.
    apply list_elem_of_singleton in Hkv'. injection Hkv' as -> ->.
    apply elem_of_cons in Hsel as [Hsel|Hsel].
    + by injection Hsel as _ ->.
    + apply list_elem_of_singleton in Hsel. injection Hsel as -> ->.
      vm_compute in Hi. discriminate Hi.
Defined.

(** C3 (with an empty override set every channel with electron count n
    gets exactly the indices 0..n-1, each with value 1).  The code does
    so when both counts are positive ([form_occ_default_occupied]); for
    a channel without electrons it raises [ValueError] at line 175
    instead of returning the empty index list. *)
Theorem form_occ_default_no_electron :
  form_occ (Wfn 1 1 0) [] = Raise ValueError.
Proof. by vm_compute. Qed.

(** C4 (a successful call returns three parallel lists, alpha first and
    beta second; per channel the indices are strictly ascending, the
    values have the same length and pair with the indices position by
    position, and the count is that length).  The pairs are the items of
    the channel's dictionary after the overrides. *)
Theorem form_occ_parallel_sorted w occ nocc idx val :
  form_occ w occ = OK (nocc, idx, val) →
  ∃ li0 lv0 li1 lv1,
    idx = [li0; li1] ∧ val = [lv0; lv1] ∧
    nocc = [length li0; length li1] ∧
    (StronglySorted Z.lt li0 ∧ length lv0 = length li0 ∧
     ∀ i x, (i, x) ∈ zip li0 lv0 ↔ channel_dict w 0 occ !! i = Some x) ∧
    (StronglySorted Z.lt li1 ∧ length lv1 = length li1 ∧
     ∀ i x, (i, x) ∈ zip li1 lv1 ↔ channel_dict w 1 occ !! i = Some x).
Proof.
  intros (li0 & lv0 & li1 & lv1 & _ & E0 & E1 & -> & -> & ->)%form_occ_ok.
  apply split_sorted_ok in E0 as (_ & ? & ? & ? & _).
  apply split_sorted_ok in E1 as (_ & ? & ? & ? & _).
  by exists li0, lv0, li1, lv1.
Qed.

Lemma form_occ_parallel_sorted_witness :
  ∃ li0 lv0 li1 lv1,
    [[-1; 0; 1; 2]; [0; 1]] = [li0; li1] ∧
    [[1#4; 1; 1; 0]; [1; 1]]%Q = [lv0; lv1] ∧
    [4; 2]%nat = [length li0; length li1] ∧
    (StronglySorted Z.lt li0 ∧ length lv0 = length li0 ∧
     ∀ i x, (i, x) ∈ zip li0 lv0 ↔
            channel_dict (Wfn 6 3 2)
              0 [("ALPHA"%string, [(SInt 2, 0%Q); (SInt (-1), (1#4)%Q)])]
            !! i = Some x) ∧
    (StronglySorted Z.lt li1 ∧ length lv1 = length li1 ∧
     ∀ i x, (i, x) ∈ zip li1 lv1 ↔
            channel_dict (Wfn 6 3 2)
              1 [("ALPHA"%string, [(SInt 2, 0%Q); (SInt (-1), (1#4)%Q)])]
            !! i = Some x).
Proof.
  apply (form_occ_parallel_sorted (Wfn 6 3 2)
           [("ALPHA"%string, [(SInt 2, 0%Q); (SInt (-1), (1#4)%Q)])]).
  vm_compute. reflexivity.
Defined.

(** C10 as stated fails: with two negative indices overridden in one
    channel, the larger one is accepted and listed, but the list starts
    with the smaller one. *)
Lemma form_occ_negative_not_front :
  ¬ (∀ w occ k v i x s nocc idx val,
       (k, v) ∈ occ → (SInt i, x) ∈ v →
       index_of (lower k) spin_chanel = Some s →
       i < Z.of_nat (nbf w) →
       form_occ w occ = OK (nocc, idx, val) →
       ∃ li, idx !! s = Some li ∧ head li = Some i).
Proof.
  intros H.
  destruct (H (Wfn 4 2 2)
              [("alpha"%string, [(SInt (-1), (1#2)%Q); (SInt (-2), (1#2)%Q)])]
              "alpha"%string
              [(SInt (-1), (1#2)%Q); (SInt (-2), (1#2)%Q)]
              (-1) (1#2)%Q 0%nat
              [4; 2]%nat [[-2; -1; 0; 1]; [0; 1]]
              [[1#2; 1#2; 1; 1]; [1; 1]]%Q)
    as (li & Hli & Hhead).
  - apply list_elem_of_here.
  - apply list_elem_of_here.
  - reflexivity.
  - simpl. lia.
  - by vm_compute.
  - simpl in Hli. injection Hli as <-. discriminate Hhead.
Qed.

(** C10, amended (no lower bound is checked on an integer selector: an
    entry whose index is below the basis size, negative or not, and whose
    value lies in [0,1] is written under that index; after a successful
    call the index is in the index list of its channel, and a negative
    index is at the front of that list when no smaller index was
    overridden in the channel). *)
Theorem form_occ_integer_selector :
  (∀ nbf nelec s rst d i x,
     i < Z.of_nat nbf → (0 <= x <= 1)%Q → rst !! s = Some d →
     set_occ nbf nelec s rst (SInt i, x) = OK (<[s := <[i := x]> d]> rst)) ∧
  (∀ w occ nocc idx val k v i x s,
     form_occ w occ = OK (nocc, idx, val) →
     (k, v) ∈ occ → (SInt i, x) ∈ v →
     index_of (lower k) spin_chanel = Some s →
     ∃ li, idx !! s = Some li ∧ i ∈ li ∧
           (i < 0 →
            (∀ j y, (j, y) ∈ resolved_items w s occ → i ≤ j) →
            head li = Some i)).
Proof.
  split.
  - intros nbf nelec s rst d i x Hi Hx Hd. apply set_occ_ok.
    exists i, d. split_and!; [done..| |done|done].
    by apply occ_in_range_iff.
  - intros w occ nocc idx val k v i x s Hok Hkv Hv Hs.
    assert (s < 2)%nat as Hs2 by (apply index_of_spin in Hs; lia).
    destruct (form_occ_channel _ _ _ _ _ s Hok Hs2)
      as (li & lv & Hli & _ & _ & Hsplit).
    apply split_sorted_ok in Hsplit as (_ & Hsorted & _ & _ & Hdom).
    assert ((i, x) ∈ resolved_items w s occ) as Hres.
    { apply list_elem_of_omap. exists (SInt i, x). split; [|done].
      apply elem_of_channel_items. eauto. }
    assert (i ∈ li) as Hin.
    { apply Hdom, channel_dict_dom. right.
      apply list_elem_of_fmap. by exists (i, x). }
    exists li. split_and!; [done..|].
    intros Hneg Hmin. apply sorted_head; [done..|].
    intros j [Hj|Hj]%Hdom%channel_dict_dom; [lia|].
    apply list_elem_of_fmap in Hj as ([j' y] & -> & Hj). by eapply Hmin.
Qed.

Lemma form_occ_integer_selector_witness :
  set_occ 4 [2; 2]%nat 0 [aufbau 2; aufbau 2] (SInt (-7), (1#3)%Q)
  = OK (<[0%nat := <[-7 := (1#3)%Q]> (aufbau 2)]> [aufbau 2; aufbau 2]) ∧
  ∃ li, [[-2; -1; 0; 1]; [0; 1]] !! 0%nat = Some li ∧ -2 ∈ li ∧
        head li = Some (-2).
Proof.
  split.
  - apply (proj1 form_occ_integer_selector 4%nat [2; 2]%nat 0%nat
             [aufbau 2; aufbau 2] (aufbau 2) (-7) (1#3)%Q).
    + reflexivity.
    + split; discriminate.
    + reflexivity.
  - destruct (proj2 form_occ_integer_selector (Wfn 4 2 2)
                [("alpha"%string,
                  [(SInt (-1), (1#2)%Q); (SInt (-2), (1#2)%Q)])]
                [4; 2]%nat [[-2; -1; 0; 1]; [0; 1]]
                [[1#2; 1#2; 1; 1]; [1; 1]]%Q
                "alpha"%string
                [(SInt (-1), (1#2)%Q); (SInt (-2), (1#2)%Q)]
                (-2) (1#2)%Q 0%nat)
      as (li & Hli & Hin & Hfront).
    + vm_compute. reflexivity.
    + apply list_elem_of_here.
    + apply list_elem_of_further, list_elem_of_here.
    + reflexivity.
    + exists li. split; [exact Hli|]. split; [exact Hin|].
      apply Hfront; [reflexivity|].
      intros j y Hj. vm_compute in Hj.
      apply elem_of_cons in Hj as [Hj|Hj].
      * injection Hj as -> _. discriminate.
      * apply elem_of_cons in Hj as [Hj|Hj].
        -- injection Hj as -> _. discriminate.
        -- by apply elem_of_nil in Hj.
Defined.

End OccFacts.

(** * form_occ leaves the dictionaries it is given untouched *)

Module OccStoreFacts.
Import Occ OccStore.

Section frame.
Context (h : store) (l0 l1 : loc).
Hypothesis Hl0 : h !! l0 = None.
Hypothesis Hl1 : h !! l1 = None.
Hypothesis Hne : l0 ≠ l1.

Lemma with_rst_old d0 d1 l :
  is_Some (h !! l) → with_rst h l0 l1 [d0; d1] !! l = h !! l.
Proof.
  intros [o Ho]. unfold with_rst.
  rewrite !lookup_insert_ne; [done|congruence..].
Qed.

Lemma with_rst_l0 d0 d1 : with_rst h l0 l1 [d0; d1] !! l0 = Some (OOcc d0).
Proof.
  unfold with_rst. rewrite lookup_insert_ne by done.
  apply lookup_insert_eq.
Qed.

Lemma with_rst_l1 d0 d1 : with_rst h l0 l1 [d0; d1] !! l1 = Some (OOcc d1).
Proof. unfold with_rst. apply lookup_insert_eq. Qed.

(** Line 168 writes into the dictionary allocated by the call. *)
Lemma write_occ_with_rst s d0 d1 d l i x :
  [l0; l1] !! s = Some l → [d0; d1] !! s = Some d →
  write_occ l i x (with_rst h l0 l1 [d0; d1]) =
  (OK (), with_rst h l0 l1 (<[s := <[i := x]> d]> [d0; d1])).
Proof.
  intros Hl Hd. unfold write_occ.
  destruct s as [|[|s]]; simpl in Hl, Hd; [| |done];
    injection Hl as <-; injection Hd as <-; simpl.
  - rewrite lookup_insert_ne by done. rewrite lookup_insert_eq.
    f_equal. rewrite (insert_insert_ne _ l0 l1) by done.
    by rewrite insert_insert_eq.
  - rewrite lookup_insert_eq. f_equal. by rewrite insert_insert_eq.
Qed.

Lemma set_occ_sim nbf nelec s d0 d1 item :
  (s < 2)%nat →
  OccStore.set_occ nbf nelec [l0; l1] s item (with_rst h l0 l1 [d0; d1]) =
  match Occ.set_occ nbf nelec s [d0; d1] item with
  | OK rst' => (OK (), with_rst h l0 l1 rst')
  | Raise e => (Raise e, with_rst h l0 l1 [d0; d1])
  end.
Proof.
  intros Hs. destruct item as [sel x].
  unfold OccStore.set_occ, Occ.set_occ, bind, lift, throw.
  destruct (resolve nelec s sel) as [i|e]; cbn [mbind result_bind]; [|done].
  case_bool_decide; [done|].
  destruct (occ_in_range x); cbn [negb]; [|done].
  assert (is_Some ([l0; l1] !! s)) as [l Hl]
    by (apply lookup_lt_is_Some; simpl; lia).
  assert (is_Some ([d0; d1] !! s)) as [d Hd]
    by (apply lookup_lt_is_Some; simpl; lia).
  rewrite Hl, Hd. by eapply write_occ_with_rst.
Qed.

Lemma inner_loop_sim nbf nelec s v rst :
  (s < 2)%nat → length rst = 2%nat →
  ∃ rst', length rst' = 2%nat ∧
    iter (OccStore.set_occ nbf nelec [l0; l1] s) v (with_rst h l0 l1 rst) =
    (void (for_each (Occ.set_occ nbf nelec s) rst v),
     with_rst h l0 l1 rst') ∧
    ∀ rst'', for_each (Occ.set_occ nbf nelec s) rst v = OK rst'' →
             rst' = rst''.
Proof.
  intros Hs. revert rst. induction v as [|item v IH]; intros rst Hlen.
  { exists rst. split_and!; [done..|]. by intros ? [= <-]. }
  destruct rst as [|d0 [|d1 [|??]]]; try done.
  cbn [iter for_each]. unfold bind at 1. rewrite set_occ_sim by done.
  destruct (Occ.set_occ nbf nelec s [d0; d1] item) as [rst1|e] eqn:H1;
    cbn [mbind result_bind].
  - assert (length rst1 = 2%nat) as Hlen1.
    { destruct item. apply OccFacts.set_occ_ok in H1
        as (?&?&_&_&_&_&->). by rewrite length_insert. }
    destruct (IH rst1 Hlen1) as (rst' & Hlen' & Hiter & Hfin).
    exists rst'. by split_and!.
  - exists [d0; d1]. by split_and!.
Qed.

Lemma set_channel_sim nbf nelec kv kc rst :
  holds h kv kc → length rst = 2%nat →
  ∃ rst', length rst' = 2%nat ∧
    OccStore.set_channel nbf nelec [l0; l1] kv (with_rst h l0 l1 rst) =
    (void (Occ.set_channel nbf nelec rst kc), with_rst h l0 l1 rst') ∧
    ∀ rst'', Occ.set_channel nbf nelec rst kc = OK rst'' → rst' = rst''.
Proof.
  destruct kv as [k v], kc as [k' c]. intros [Hk Hv] Hlen.
  simpl in Hk, Hv. subst k'.
  unfold OccStore.set_channel, Occ.set_channel.
  destruct (index_of (lower k) spin_chanel) as [s|] eqn:Hs.
  2: { exists rst. by split_and!. }
  assert (s < 2)%nat by (apply OccFacts.index_of_spin in Hs; lia).
  unfold bind, read_channel.
  destruct rst as [|d0 [|d1 [|??]]]; try done.
  rewrite with_rst_old by eauto. rewrite Hv.
  destruct (inner_loop_sim nbf nelec s c [d0; d1])
    as (rst1 & Hlen1 & -> & Hfin1); [done..|].
  exists rst1. by split_and!.
Qed.

Lemma outer_loop_sim nbf nelec items ov rst :
  Forall2 (holds h) items ov → length rst = 2%nat →
  ∃ rst', length rst' = 2%nat ∧
    iter (OccStore.set_channel nbf nelec [l0; l1]) items
      (with_rst h l0 l1 rst) =
    (void (for_each (Occ.set_channel nbf nelec) rst ov),
     with_rst h l0 l1 rst') ∧
    ∀ rst'', for_each (Occ.set_channel nbf nelec) rst ov = OK rst'' →
             rst' = rst''.
Proof.
  intros Hitems. revert rst.
  induction Hitems as [|kv kc items ov Hkv _ IH]; intros rst Hlen.
  { exists rst. split_and!; [done..|]. by intros ? [= <-]. }
  cbn [iter for_each]. unfold bind at 1.
  destruct (set_channel_sim nbf nelec kv kc rst Hkv Hlen)
    as (rst1 & Hlen1 & -> & Hfin1).
  destruct (Occ.set_channel nbf nelec rst kc) as [rst1'|e] eqn:H1;
    cbn [void mbind result_bind].
  - rewrite <- (Hfin1 _ eq_refl).
    destruct (IH rst1 Hlen1) as (rst' & Hlen' & Hiter & Hfin).
    exists rst'. by split_and!.
  - exists rst1. by split_and!.
Qed.

(** Lines 170-177 read the two dictionaries back. *)
Lemma finish_sim d0 d1 :
  collect (λ l, bind (read_occ l) (λ d, lift (split_sorted d))) [l0; l1]
    (with_rst h l0 l1 [d0; d1]) =
  (map_each split_sorted [d0; d1], with_rst h l0 l1 [d0; d1]).
Proof.
  cbn [collect map_each]. unfold bind, read_occ, lift, ret.
  rewrite with_rst_l0.
  destruct (split_sorted d0) as [c0|e0]; cbn [mbind result_bind]; [|done].
  rewrite with_rst_l1.
  destruct (split_sorted d1) as [c1|e1]; cbn [mbind result_bind]; done.
Qed.

(** The mapping read through [occ] is the same before and after. *)
Lemma snapshot_with_rst occ ov rst :
  length rst = 2%nat →
  snapshot h occ = Some ov → snapshot (with_rst h l0 l1 rst) occ = Some ov.
Proof.
  intros Hlen. destruct rst as [|d0 [|d1 [|??]]]; try done.
  unfold snapshot.
  destruct (h !! occ) as [[items| |]|] eqn:Hocc; try done.
  rewrite with_rst_old by eauto. rewrite Hocc.
  intros Hall%mapM_Some_1. apply mapM_Some_2.
  eapply Forall2_impl; [exact Hall|].
  intros [k v] [k' c] Hm.
  assert (h !! v = Some (OChannel c) ∧ k = k') as [Hv ->].
  { destruct (h !! v) as [[| |]|]; by simplify_eq. }
  rewrite with_rst_old by eauto. by rewrite Hv.
Qed.

End frame.

Lemma bind_run {A B} (m : st A) (f : A → st B) h :
  bind m f h =
  match m h with
  | (OK a, h') => f a h'
  | (Raise e, h') => (Raise e, h')
  end.
Proof. reflexivity. Qed.

(** Line 148 allocates two dictionaries at addresses not in use. *)
Lemma alloc_rst (h : store) na nb :
  ∃ l0 l1, h !! l0 = None ∧ h !! l1 = None ∧ l0 ≠ l1 ∧
    collect (λ n, alloc (OOcc (aufbau n))) [na; nb] h =
    (OK [l0; l1], with_rst h l0 l1 [aufbau na; aufbau nb]).
Proof.
  set (l0 := fresh (dom h)).
  set (h1 := <[l0 := OOcc (aufbau na)]> h).
  set (l1 := fresh (dom h1)).
  assert (l0 ∉ dom h) as H0 by apply is_fresh.
  assert (l1 ∉ dom h1) as H1 by apply is_fresh.
  exists l0, l1. split_and!.
  - by apply not_elem_of_dom.
  - apply not_elem_of_dom. unfold h1 in H1. rewrite dom_insert in H1.
    set_solver.
  - unfold h1 in H1. rewrite dom_insert in H1. set_solver.
  - reflexivity.
Qed.

Lemma snapshot_Some (h : store) occ ov :
  snapshot h occ = Some ov →
  ∃ items, h !! occ = Some (OOverrides items) ∧ Forall2 (holds h) items ov.
Proof.
  unfold snapshot. destruct (h !! occ) as [[items| |]|]; try done.
  intros Hall%mapM_Some_1. exists items. split; [done|].
  eapply Forall2_impl; [exact Hall|].
  intros [k v] [k' c] Hm. unfold holds. simpl.
  destruct (h !! v) as [[| |]|]; by simplify_eq.
Qed.

(** A call computes what [Occ.form_occ] computes from the mapping read
    through [occ], and its store is the old one with two new objects. *)
Lemma form_occ_body_spec w occ (h : store) ov :
  snapshot h occ = Some ov →
  ∃ l0 l1 rst, h !! l0 = None ∧ h !! l1 = None ∧ l0 ≠ l1 ∧
    length rst = 2%nat ∧
    form_occ_body w occ h = (Occ.form_occ w ov, with_rst h l0 l1 rst).
Proof.
  intros (items & Hocc & Hitems)%snapshot_Some.
  destruct (alloc_rst h (nalpha w) (nbeta w)) as (l0 & l1 & H0 & H1 & Hne & Ha).
  exists l0, l1. unfold form_occ_body. rewrite bind_run, Ha, bind_run.
  unfold read_overrides at 1. rewrite with_rst_old by eauto. rewrite Hocc.
  rewrite bind_run.
  destruct (outer_loop_sim h l0 l1 H0 H1 Hne (nbf w) [nalpha w; nbeta w]
              items ov [aufbau (nalpha w); aufbau (nbeta w)])
    as (rst & Hlen & -> & Hfin); [done..|].
  unfold Occ.form_occ, apply_overrides. cbn [fmap list_fmap].
  destruct (for_each (Occ.set_channel (nbf w) [nalpha w; nbeta w])
              [aufbau (nalpha w); aufbau (nbeta w)] ov) as [rst'|e] eqn:Hloop;
    cbn [void mbind result_bind].
  2: { exists rst. by split_and!. }
  rewrite <- (Hfin _ eq_refl). exists rst. split_and!; [done..|].
  destruct rst as [|d0 [|d1 [|??]]]; try done.
  rewrite bind_run, finish_sim by done. unfold finish.
  destruct (map_each split_sorted [d0; d1]) as [cols|e];
    cbn [mbind result_bind]; done.
Qed.

(** C8 (two calls with the same context and the same override mapping
    return the same outcome, and no call changes an object that existed
    before it: in particular the default-argument dictionary, which all
    calls without [occ] share, is read and never written). *)
Theorem form_occ_repeatable w arg pw ov :
  snapshot (objects pw) (default (default_occ pw) arg) = Some ov →
  let c1 := call_form_occ w arg pw in
  let c2 := call_form_occ w arg c1.2 in
  c1.1 = Occ.form_occ w ov ∧ c2.1 = c1.1 ∧
  default_occ c1.2 = default_occ pw ∧
  (∀ l, is_Some (objects pw !! l) → objects c1.2 !! l = objects pw !! l) ∧
  snapshot (objects c1.2) (default (default_occ pw) arg) = Some ov.
Proof.
  intros Hsnap c1 c2.
  destruct (form_occ_body_spec w _ _ _ Hsnap)
    as (l0 & l1 & rst & H0 & H1 & Hne & Hlen & Hbody).
  assert (c1 = (Occ.form_occ w ov,
                World (with_rst (objects pw) l0 l1 rst) (default_occ pw)))
    as Hc1.
  { unfold c1, call_form_occ. by rewrite Hbody. }
  assert (snapshot (objects c1.2) (default (default_occ c1.2) arg) = Some ov)
    as Hsnap'.
  { rewrite Hc1. simpl. by apply snapshot_with_rst. }
  destruct (form_occ_body_spec w _ _ _ Hsnap')
    as (l0' & l1' & rst' & _ & _ & _ & _ & Hbody').
  assert (c2.1 = Occ.form_occ w ov) as Hc2.
  { unfold c2, call_form_occ. by rewrite Hbody'. }
  rewrite Hc2. rewrite Hc1 in Hsnap' |- *. simpl in *. split_and!; try done.
  intros l Hl. destruct rst as [|d0 [|d1 [|??]]]; try done.
  by apply with_rst_old.
Qed.

Lemma form_occ_repeatable_witness :
  let pw := World {[ 1%positive := OOverrides [] ]} 1%positive in
  let c1 := call_form_occ (Wfn 3 2 1) None pw in
  let c2 := call_form_occ (Wfn 3 2 1) None c1.2 in
  c1.1 = Occ.form_occ (Wfn 3 2 1) [] ∧ c2.1 = c1.1 ∧
  default_occ c1.2 = default_occ pw ∧
  (∀ l, is_Some (objects pw !! l) → objects c1.2 !! l = objects pw !! l) ∧
  snapshot (objects c1.2) (default (default_occ pw) None) = Some [].
Proof.
  apply (form_occ_repeatable (Wfn 3 2 1) None
           (World {[ 1%positive := OOverrides [] ]} 1%positive) []).
  reflexivity.
Defined.

End OccStoreFacts.

(** * Properties of form_grid_lo and form_grid_w *)

Module GridFacts.
Import Grid.

#[local] Open Scope nat_scope.

(** ** Slice assignment *)

Lemma broadcast_length {A} (src : list A) m src' :
  broadcast src m = OK src' → length src' = m.
Proof.
  unfold broadcast. case_bool_decide as Hlen; [by intros [= <-]|].
  destruct src as [|x [|??]]; [done| |done].
  intros [= <-]. apply length_replicate.
Qed.

Lemma broadcast_raise {A} (src : list A) m e :
  broadcast src m = Raise e → e = ValueError.
Proof.
  unfold broadcast. case_bool_decide; [done|].
  destruct src as [|x [|??]]; by intros [= <-].
Qed.

Lemma assign_slice_length {A} (dst : list A) a b src dst' :
  a ≤ b → assign_slice dst a b src = OK dst' → length dst' = length dst.
Proof.
  intros Hab. unfold assign_slice.
  destruct (broadcast src _) as [src'|e] eqn:Hb; cbn [mbind result_bind];
    [|done].
  intros [= <-]. apply broadcast_length in Hb.
  rewrite !length_app, length_take, length_drop, Hb. lia.
Qed.

Lemma assign_slice_raise {A} (dst : list A) a b src e :
  assign_slice dst a b src = Raise e → e = ValueError.
Proof.
  unfold assign_slice.
  destruct (broadcast src _) as [src'|e'] eqn:Hb; cbn [mbind result_bind];
    [done|].
  intros [= <-]. by eapply broadcast_raise.
Qed.

(** A source of the length of an unclipped slice replaces the slice. *)
Lemma assign_slice_exact {A} (dst : list A) a n src :
  a + n ≤ length dst → length src = n →
  assign_slice dst a (a + n) src = OK (take a dst ++ src ++ drop (a + n) dst).
Proof.
  intros Hb Hlen. unfold assign_slice, broadcast.
  rewrite !Nat.min_l by lia. rewrite bool_decide_true by lia. done.
Qed.

(** ** A loop that places chunk after chunk *)

Section fill.
Context {St B A : Type} (proj : St → list A).
Context (size : B → nat) (chunk : B → list A).
Context (body : St * nat → B → result (St * nat)) (good : B → Prop).
Context (inv : St → Prop).
Hypothesis step : ∀ st c blk,
  good blk → inv st → c + size blk ≤ length (proj st) →
  ∃ st', body (st, c) blk = OK (st', c + size blk) ∧ inv st' ∧
         proj st' = take c (proj st) ++ chunk blk
                    ++ drop (c + size blk) (proj st).
Hypothesis chunk_length : ∀ blk, good blk → length (chunk blk) = size blk.

Lemma total_cons blk blks :
  total size (blk :: blks) = size blk + total size blks.
Proof. reflexivity. Qed.

Lemma locate_Some blks i b j :
  locate size blks i = Some (b, j) →
  ∃ blk, blks !! b = Some blk ∧ j < size blk ∧
         i = total size (take b blks) + j.
Proof.
  revert i b. induction blks as [|blk rest IH]; intros i b; simpl; [done|].
  case_decide as Hi.
  - intros [= <- <-]. exists blk. by split_and!.
  - destruct (locate size rest (i - size blk)) as [[b' j']|] eqn:Hl; [|done].
    simpl. intros [= <- <-]. destruct (IH _ _ Hl) as (blk' & ? & ? & ?).
    exists blk'. split_and!; [done..|].
    change (take (S b') (blk :: rest)) with (blk :: take b' rest).
    rewrite total_cons. lia.
Qed.

Lemma locate_total blks i :
  i < total size blks → is_Some (locate size blks i).
Proof.
  revert i. induction blks as [|blk rest IH]; intros i.
  { unfold total. simpl. lia. }
  rewrite total_cons. intros Hi. simpl. case_decide; [done|].
  destruct (IH (i - size blk)) as [[b j] ->]; [lia|]. done.
Qed.

Lemma fill_loop blks st c :
  Forall good blks → inv st → c + total size blks ≤ length (proj st) →
  ∃ st', for_each body (st, c) blks = OK (st', c + total size blks) ∧
    length (proj st') = length (proj st) ∧
    (∀ i, i < c → proj st' !! i = proj st !! i) ∧
    (∀ i b j, locate size blks i = Some (b, j) →
       ∃ blk, blks !! b = Some blk ∧ j < size blk ∧
              proj st' !! (c + i) = chunk blk !! j).
Proof.
  intros Hgood. revert st c.
  induction Hgood as [|blk rest Hblk _ IH]; intros st c Hinv Hc.
  { exists st. unfold total. simpl. rewrite Nat.add_0_r.
    by split_and!. }
  rewrite total_cons in Hc |- *. cbn [for_each].
  destruct (step st c blk Hblk Hinv) as (st1 & -> & Hinv1 & Hst1); [lia|].
  pose proof (chunk_length blk Hblk) as Hlen.
  assert (length (proj st1) = length (proj st)) as Hlen1.
  { rewrite Hst1, !length_app, length_take, length_drop. lia. }
  destruct (IH st1 (c + size blk)) as (st' & Hloop & Hlen' & Hlow & Hloc).
  { done. }
  { lia. }
  exists st'. cbn [mbind result_bind]. split_and!.
  - by rewrite Hloop, Nat.add_assoc.
  - congruence.
  - intros i Hi. rewrite Hlow by lia. rewrite Hst1.
    rewrite lookup_app_l by (rewrite length_take; lia).
    apply lookup_take_lt. lia.
  - intros i b j. cbn [locate]. case_decide as Hi.
    + intros [= <- <-]. exists blk. split_and!; [done..|].
      rewrite Hlow by lia. rewrite Hst1.
      rewrite lookup_app_r by (rewrite length_take; lia).
      rewrite length_take, Nat.min_l by lia.
      rewrite lookup_app_l by lia. f_equal. lia.
    + destruct (locate size rest (i - size blk)) as [[b' j']|] eqn:Hl;
        [|done].
      simpl. intros [= <- <-].
      destruct (Hloc _ _ _ Hl) as (blk' & ? & ? & Hlk).
      exists blk'. split_and!; [done..|]. rewrite <- Hlk. f_equal. lia.
Qed.

End fill.

Lemma for_each_raise {S A} (body : S → A → result S) st l e :
  for_each body st l = Raise e → ∃ st' x, body st' x = Raise e.
Proof.
  revert st. induction l as [|x l IH]; intros st; [done|]. cbn [for_each].
  destruct (body st x) as [st1|e1] eqn:H1; cbn [mbind result_bind].
  - apply IH.
  - intros [= <-]. eauto.
Qed.

Lemma map_each_raise {A B} (f : A → result B) l e :
  map_each f l = Raise e → ∃ x, f x = Raise e.
Proof.
  induction l as [|x l IH]; [done|]. cbn [map_each].
  destruct (f x) as [y|e1] eqn:H1; cbn [mbind result_bind].
  - destruct (map_each f l); cbn [mbind result_bind]; [done|].
    intros [= <-]. by apply IH.
  - intros [= <-]. eauto.
Qed.

Lemma map_each_Forall2 {A B} (f : A → result B) l ys :
  map_each f l = OK ys ↔ Forall2 (λ x y, f x = OK y) l ys.
Proof.
  revert ys. induction l as [|x l IH]; intros ys; cbn [map_each].
  - split; [intros [= <-]; constructor | by inversion 1].
  - destruct (f x) as [y|e] eqn:Hx; cbn [mbind result_bind].
    + destruct (map_each f l) as [ys'|e] eqn:Hl; cbn [mbind result_bind].
      * split.
        -- intros [= <-]. constructor; [done|]. by apply IH.
        -- inversion 1 as [|???? Hy Hrest]; subst.
           apply IH in Hrest. congruence.
      * split; [done|]. inversion 1 as [|???? Hy Hrest]; subst.
        by apply IH in Hrest.
    + split; [done|]. inversion 1; congruence.
Qed.

(** ** Arrays *)

Section arrays.
Context {F : Type} (f0 : F) (fadd fmul : F → F → F).

#[local] Abbreviation matrix := (@matrix F).

Lemma row_dot_length n r (b : list (list F)) :
  Forall (λ brow, length brow = n) b → length (row_dot f0 fadd fmul n r b) = n.
Proof.
  intros Hb. unfold row_dot.
  assert (Forall (λ xb : F * list F, length xb.2 = n) (zip r b)) as Hz.
  { apply Forall_forall. intros [x brow] Hin%elem_of_zip_r.
    rewrite Forall_forall in Hb. by apply Hb. }
  assert (length (replicate n f0) = n) as Hacc by apply length_replicate.
  revert Hacc. generalize (replicate n f0).
  induction Hz as [|[x brow] l Hx _ IH]; intros acc Hacc; simpl; [done|].
  apply IH. simpl in Hx. rewrite length_zip_with, length_fmap. lia.
Qed.

Lemma take_rows_ok (a : matrix) idx :
  idx ≠ [] → Forall (λ i, i < nrows a) idx →
  ∃ sub, take_rows a idx = OK sub ∧ ncols sub = ncols a ∧
         nrows sub = length idx ∧ (wf_matrix a → wf_matrix sub).
Proof.
  intros Hne Hidx. unfold take_rows.
  destruct idx as [|i0 idx0] eqn:Heq; [done|]. rewrite <- Heq in *.
  clear Heq Hne.
  assert (∃ rows, map_each (λ i, match cells a !! i with
                                 | Some r => OK r
                                 | None => Raise IndexError
                                 end) idx = OK rows ∧
                  length rows = length idx ∧
                  Forall (λ r, r ∈ cells a) rows) as (rows & -> & Hlen & Hin).
  { induction Hidx as [|i idx Hi _ IH].
    - by exists [].
    - destruct IH as (rows & Hrows & Hlen & Hin).
      apply lookup_lt_is_Some in Hi as [r Hr].
      exists (r :: rows). cbn [map_each]. rewrite Hr, Hrows.
      split_and!; [done|simpl; lia|].
      constructor; [|done]. by eapply list_elem_of_lookup_2. }
  eexists. split; [done|]. split_and!; [done..|].
  intros Hwf. unfold wf_matrix in *. simpl.
  rewrite Forall_forall in Hwf. eapply Forall_impl; [exact Hin|].
  intros r Hr. by apply Hwf.
Qed.

Lemma take_rows_shape (a sub : matrix) idx :
  take_rows a idx = OK sub →
  ncols sub = ncols a ∧ (wf_matrix a → wf_matrix sub).
Proof.
  unfold take_rows. destruct idx as [|i0 idx0]; [done|].
  destruct (map_each _ _) as [rows|e] eqn:Hrows; cbn [mbind result_bind];
    [|done].
  intros [= <-]. split; [done|]. intros Hwf. unfold wf_matrix in *. simpl.
  apply map_each_Forall2 in Hrows. rewrite Forall_forall in Hwf.
  induction Hrows as [|i r ?? Hi _ IH]; constructor; [|done].
  destruct (cells a !! i) as [r'|] eqn:Hr; [|done]. simplify_eq.
  apply Hwf. by eapply list_elem_of_lookup_2.
Qed.

Lemma dot_shape (a b prod : matrix) :
  dot f0 fadd fmul a b = OK prod →
  ncols prod = ncols b ∧ nrows prod = nrows a ∧
  (wf_matrix b → wf_matrix prod).
Proof.
  unfold dot. case_bool_decide; [|done]. intros [= <-].
  unfold nrows, wf_matrix. simpl. rewrite length_fmap.
  split_and!; [done..|]. intros Hb. apply Forall_fmap, Forall_forall.
  intros r _. simpl. by apply row_dot_length.
Qed.

Lemma block_lo_shape pf (C_lo prod : matrix) blk :
  block_lo f0 fadd fmul pf C_lo blk = OK prod →
  ncols prod = ncols C_lo ∧ (wf_matrix C_lo → wf_matrix prod).
Proof.
  unfold block_lo.
  destruct (take_rows C_lo _) as [sub|e] eqn:Hsub; cbn [mbind result_bind];
    [|done].
  apply take_rows_shape in Hsub as [Hc Hwf].
  intros (Hc' & _ & Hwf')%dot_shape. split; [congruence | auto].
Qed.

(** On a block that fits, the block product has one row per point. *)
Lemma block_lo_ok pf (C_lo : matrix) blk :
  block_ok pf C_lo blk →
  ∃ prod, block_lo f0 fadd fmul pf C_lo blk = OK prod ∧
          nrows prod = npoints blk ∧ ncols prod = ncols C_lo.
Proof.
  intros (_ & Hne & Hidx & Hrows & Hcols & _). unfold block_lo.
  destruct (take_rows_ok C_lo _ Hne Hidx) as (sub & -> & Hc & Hr & _).
  cbn [mbind result_bind]. unfold dot.
  rewrite bool_decide_true.
  - eexists. split; [done|]. unfold nrows in *. simpl.
    rewrite !length_fmap, length_take. split; [lia | done].
  - simpl. lia.
Qed.

(** ** The two loops *)

Lemma w_step_length (st : list F * nat) blk st' :
  w_step st blk = OK st' → length st'.1 = length st.1.
Proof.
  destruct st as [g c]. unfold w_step.
  destruct (assign_slice g c _ _) as [g'|e] eqn:Ha; cbn [mbind result_bind];
    [|done].
  intros [= <-]. simpl. eapply assign_slice_length; [|exact Ha]. lia.
Qed.

Lemma w_loop_length blks (st : list F * nat) st' :
  for_each w_step st blks = OK st' → length st'.1 = length st.1.
Proof.
  revert st. induction blks as [|blk blks IH]; intros st.
  - by intros [= <-].
  - intros (st1 & H1 & H2)%OccFacts.for_each_cons_ok.
    apply w_step_length in H1. apply IH in H2. congruence.
Qed.

Lemma assign_rows_shape (dst src dst' : matrix) a b :
  a ≤ b → assign_rows dst a b src = OK dst' →
  nrows dst' = nrows dst ∧ ncols dst' = ncols dst ∧
  (wf_matrix dst → wf_matrix src → wf_matrix dst').
Proof.
  intros Hab. unfold assign_rows.
  destruct (if bool_decide (ncols src = ncols dst) then _ else _)
    as [rows|e] eqn:Hrows; cbn [mbind result_bind]; [|done].
  destruct (assign_slice (cells dst) a b rows) as [rows'|e] eqn:Ha;
    cbn [mbind result_bind]; [|done].
  intros [= <-]. unfold nrows, wf_matrix. simpl. split_and!; [|done|].
  - eapply assign_slice_length; [|exact Ha]. done.
  - intros Hdst Hsrc.
    assert (Forall (λ r, length r = ncols dst) rows) as Hr.
    { case_bool_decide as Hc.
      - injection Hrows as <-. by rewrite <- Hc.
      - case_bool_decide; [|done]. apply map_each_Forall2 in Hrows.
        clear -Hrows. induction Hrows as [|r r' ?? Hb _ IH];
          constructor; [|done]. by apply broadcast_length in Hb. }
    unfold assign_slice in Ha.
    destruct (broadcast rows _) as [src'|e] eqn:Hb; cbn [mbind result_bind] in Ha;
      [|done].
    injection Ha as <-. rewrite !Forall_app. split_and!.
    + by apply Forall_take.
    + unfold broadcast in Hb. case_bool_decide; [by simplify_eq|].
      destruct rows as [|r [|??]]; [done| |done]. injection Hb as <-.
      apply Forall_replicate. by apply Forall_cons in Hr as [? _].
    + by apply Forall_drop.
Qed.

Lemma lo_step_shape pf (C_lo : matrix) st blk st' :
  lo_step f0 fadd fmul pf C_lo st blk = OK st' →
  nrows st'.1 = nrows st.1 ∧ ncols st'.1 = ncols st.1 ∧
  (wf_matrix C_lo → wf_matrix st.1 → wf_matrix st'.1).
Proof.
  destruct st as [m c]. unfold lo_step.
  destruct (block_lo _ _ _ _ _ _) as [prod|e] eqn:Hp; cbn [mbind result_bind];
    [|done].
  destruct (assign_rows m c _ prod) as [m'|e] eqn:Ha;
    cbn [mbind result_bind]; [|done].
  intros [= <-]. simpl. apply assign_rows_shape in Ha as (? & ? & Hwf);
    [|lia].
  apply block_lo_shape in Hp as [_ Hprod]. split_and!; auto.
Qed.

Lemma lo_loop_shape pf (C_lo : matrix) blks st st' :
  for_each (lo_step f0 fadd fmul pf C_lo) st blks = OK st' →
  nrows st'.1 = nrows st.1 ∧ ncols st'.1 = ncols st.1 ∧
  (wf_matrix C_lo → wf_matrix st.1 → wf_matrix st'.1).
Proof.
  revert st. induction blks as [|blk blks IH]; intros st.
  - by intros [= <-].
  - intros (st1 & H1 & H2)%OccFacts.for_each_cons_ok.
    apply lo_step_shape in H1 as (? & ? & ?).
    apply IH in H2 as (? & ? & ?). split_and!; [congruence..|auto].
Qed.

Lemma zeros_shape n m :
  nrows (zeros f0 n m) = n ∧ ncols (zeros f0 n m) = m ∧
  wf_matrix (zeros f0 n m).
Proof.
  unfold nrows, wf_matrix, zeros. simpl. rewrite length_replicate.
  split_and!; [done..|]. apply Forall_replicate, length_replicate.
Qed.

(** What the loops raise. *)
Lemma w_loop_raise blks (st : list F * nat) e :
  for_each w_step st blks = Raise e → array_error e.
Proof.
  intros ([g c] & blk & H)%for_each_raise. unfold w_step in H.
  destruct (assign_slice g c _ _) as [g'|e'] eqn:Ha; cbn [mbind result_bind] in H;
    [done|].
  injection H as <-. left. by eapply assign_slice_raise.
Qed.

Lemma lo_loop_raise pf (C_lo : matrix) blks st e :
  for_each (lo_step f0 fadd fmul pf C_lo) st blks = Raise e → array_error e.
Proof.
  intros ([m c] & blk & H)%for_each_raise. unfold lo_step in H.
  destruct (block_lo _ _ _ _ _ _) as [prod|e'] eqn:Hp;
    cbn [mbind result_bind] in H.
  - destruct (assign_rows m c _ prod) as [m'|e'] eqn:Ha;
      cbn [mbind result_bind] in H; [done|].
    injection H as <-. left. unfold assign_rows in Ha.
    destruct (if bool_decide (ncols prod = ncols m) then _ else _)
      as [rows|e''] eqn:Hrows; cbn [mbind result_bind] in Ha.
    + destruct (assign_slice _ _ _ _) eqn:Hs; cbn [mbind result_bind] in Ha;
        [done|]. injection Ha as <-. by eapply assign_slice_raise.
    + injection Ha as <-. repeat case_bool_decide; try done.
      * apply map_each_raise in Hrows as [r Hr].
        by eapply broadcast_raise.
      * by injection Hrows as <-.
  - injection H as <-. unfold block_lo in Hp.
    destruct (take_rows C_lo _) as [sub|e''] eqn:Hsub;
      cbn [mbind result_bind] in Hp.
    + left. unfold dot in Hp. case_bool_decide; [done|].
      by injection Hp as <-.
    + injection Hp as <-. right. unfold take_rows in Hsub.
      destruct (functions_local_to_global blk); [by injection Hsub as <-|].
      destruct (map_each _ _) eqn:Hm; cbn [mbind result_bind] in Hsub;
        [done|].
      injection Hsub as <-. apply map_each_raise in Hm as [i Hi].
      destruct (cells C_lo !! i); [done|]. by injection Hi as <-.
Qed.

(** On a grid whose blocks fit, each loop places the data of block
    after block at the running offset. *)
Lemma w_loop_fill blks (g : list F) c :
  Forall (λ blk : block, length (w blk) = npoints blk) blks →
  c + total npoints blks ≤ length g →
  ∃ g', for_each w_step (g, c) blks = OK (g', c + total npoints blks) ∧
    length g' = length g ∧
    (∀ i b j, locate npoints blks i = Some (b, j) →
       ∃ blk, blks !! b = Some blk ∧ j < npoints blk ∧
              g' !! (c + i) = w blk !! j).
Proof.
  intros Hgood Hc.
  destruct (fill_loop (λ g : list F, g) npoints w w_step
              (λ blk, length (w blk) = npoints blk) (λ _, True))
    with (blks := blks) (st := g) (c := c)
    as (g' & Hloop & Hlen & _ & Hloc); [| |done..|].
  - intros st c' blk Hblk _ Hc'. eexists. split_and!; [|done|done].
    unfold w_step. by rewrite assign_slice_exact.
  - done.
  - by exists g'.
Qed.

Lemma lo_loop_fill pf (C_lo : matrix) blks (m : matrix) c :
  Forall (block_ok pf C_lo) blks → ncols m = ncols C_lo →
  c + total npoints blks ≤ nrows m →
  ∃ m', for_each (lo_step f0 fadd fmul pf C_lo) (m, c) blks
        = OK (m', c + total npoints blks) ∧
    nrows m' = nrows m ∧
    (∀ i b j, locate npoints blks i = Some (b, j) →
       ∃ blk, blks !! b = Some blk ∧ j < npoints blk ∧
              cells m' !! (c + i) = block_rows f0 fadd fmul pf C_lo blk !! j).
Proof.
  intros Hgood Hcols Hc.
  destruct (fill_loop (λ m : matrix, cells m) npoints (block_rows f0 fadd fmul pf C_lo)
              (lo_step f0 fadd fmul pf C_lo) (block_ok pf C_lo)
              (λ m, ncols m = ncols C_lo))
    with (blks := blks) (st := m) (c := c)
    as (m' & Hloop & Hlen & _ & Hloc); [| |done..|].
  - intros st c' blk Hblk Hinv Hc'. unfold lo_step, block_rows.
    destruct (block_lo_ok pf C_lo blk Hblk) as (prod & -> & Hr & Hcl).
    cbn [mbind result_bind]. unfold assign_rows.
    rewrite bool_decide_true by congruence. cbn [mbind result_bind].
    rewrite assign_slice_exact by done. cbn [mbind result_bind].
    eexists. split_and!; [done..|]. done.
  - intros blk Hblk. unfold block_rows.
    by destruct (block_lo_ok pf C_lo blk Hblk) as (prod & -> & Hr & _).
  - by exists m'.
Qed.

(** ** The claims about the grid functions *)

(** C5 (the weight vector has the engine-reported number of points, and
    element i of it and row i of the matrix of [form_grid_lo] come from
    the same block and the same position inside the block: on a grid
    whose blocks partition its points, both functions return, and for
    every i the element and the row are entry j of the weights and of
    the block product of the block b that offset i falls into). *)
Theorem grid_alignment :
  (∀ wf gw, form_grid_w f0 wf = OK gw →
     ∃ Vpot, V_potential wf = Some Vpot ∧ length gw = grid_npoints Vpot) ∧
  (∀ wf Vpot (C_lo : matrix),
     is_HF wf = true → V_potential wf = Some Vpot → grid_ok Vpot C_lo →
     ∃ gw gl pf,
       form_grid_w f0 wf = OK gw ∧
       form_grid_lo f0 fadd fmul wf C_lo = OK gl ∧
       properties Vpot !! 0 = Some pf ∧
       ∀ i, i < grid_npoints Vpot →
         ∃ b j blk prod,
           locate npoints (blocks Vpot) i = Some (b, j) ∧
           blocks Vpot !! b = Some blk ∧ j < npoints blk ∧
           block_lo f0 fadd fmul pf C_lo blk = OK prod ∧
           is_Some (gw !! i) ∧ gw !! i = w blk !! j ∧
           is_Some (cells gl !! i) ∧ cells gl !! i = cells prod !! j).
Proof.
  split.
  - intros wf gw. unfold form_grid_w.
    destruct (is_HF wf); cbn [negb]; [|done].
    destruct (V_potential wf) as [Vpot|]; [|done].
    destruct (for_each _ _ _) as [st|e] eqn:Hloop; cbn [mbind result_bind];
      [|done].
    intros [= <-]. exists Vpot. split; [done|].
    apply w_loop_length in Hloop. simpl in Hloop.
    by rewrite Hloop, length_replicate.
  - intros wf Vpot C_lo HHF HV (Htot & HC & pf & Hpf & Hblks).
    destruct (w_loop_fill (blocks Vpot) (replicate (grid_npoints Vpot) f0) 0)
      as (gw & Hw & Hwlen & Hwloc).
    { eapply Forall_impl; [exact Hblks|]. by intros blk [? _]. }
    { rewrite length_replicate. lia. }
    destruct (lo_loop_fill pf C_lo (blocks Vpot)
                (zeros f0 (grid_npoints Vpot) (ncols C_lo)) 0)
      as (gl & Hl & Hllen & Hlloc); [done|done| |].
    { destruct (zeros_shape (grid_npoints Vpot) (ncols C_lo)) as [-> _].
      lia. }
    exists gw, gl, pf. split_and!.
    + unfold form_grid_w. rewrite HHF, HV. cbn [negb]. by rewrite Hw.
    + unfold form_grid_lo. rewrite HHF, HV, Hpf. cbn [negb]. by rewrite Hl.
    + done.
    + intros i Hi.
      destruct (locate_total npoints (blocks Vpot) i) as [[b j] Hloc];
        [lia|].
      destruct (Hwloc _ _ _ Hloc) as (blk & Hb & Hj & Hgw).
      destruct (Hlloc _ _ _ Hloc) as (blk' & Hb' & _ & Hgl).
      rewrite Hb in Hb'. injection Hb' as <-.
      rewrite Forall_forall in Hblks.
      assert (block_ok pf C_lo blk) as Hok
        by (by eapply Hblks, list_elem_of_lookup_2).
      destruct (block_lo_ok pf C_lo blk Hok) as (prod & Hprod & Hr & _).
      unfold block_rows in Hgl. rewrite Hprod in Hgl. simpl in Hgw, Hgl.
      exists b, j, blk, prod. split_and!; [done..| |done| |done].
      * rewrite Hgw. apply lookup_lt_is_Some. destruct Hok as [-> _]. done.
      * rewrite Hgl. apply lookup_lt_is_Some. unfold nrows in Hr. lia.
Qed.

(** C6 (the matrix that [form_grid_lo] returns has as many rows as the
    engine reports grid points and as many columns as [C_lo]; on a grid
    whose blocks partition its points the function does return). *)
Theorem form_grid_lo_shape :
  (∀ wf (C_lo gl : matrix),
     form_grid_lo f0 fadd fmul wf C_lo = OK gl →
     ∃ Vpot, V_potential wf = Some Vpot ∧
             nrows gl = grid_npoints Vpot ∧ ncols gl = ncols C_lo ∧
             (wf_matrix C_lo → wf_matrix gl)) ∧
  (∀ wf Vpot (C_lo : matrix),
     is_HF wf = true → V_potential wf = Some Vpot → grid_ok Vpot C_lo →
     ∃ gl, form_grid_lo f0 fadd fmul wf C_lo = OK gl).
Proof.
  split.
  - intros wf C_lo gl. unfold form_grid_lo.
    destruct (is_HF wf); cbn [negb]; [|done].
    destruct (V_potential wf) as [Vpot|]; [|done].
    destruct (properties Vpot !! 0) as [pf|]; [|done].
    destruct (for_each _ _ _) as [st|e] eqn:Hloop; cbn [mbind result_bind];
      [|done].
    intros [= <-]. exists Vpot. split; [done|].
    apply lo_loop_shape in Hloop as (Hr & Hc & Hwf). simpl in Hr, Hc, Hwf.
    destruct (zeros_shape (grid_npoints Vpot) (ncols C_lo)) as (Hzr & Hzc & Hz).
    split_and!; [congruence..|]. auto.
  - intros wf Vpot C_lo HHF HV (Htot & HC & pf & Hpf & Hblks).
    destruct (lo_loop_fill pf C_lo (blocks Vpot)
                (zeros f0 (grid_npoints Vpot) (ncols C_lo)) 0)
      as (gl & Hl & _); [done|done| |].
    { destruct (zeros_shape (grid_npoints Vpot) (ncols C_lo)) as [-> _].
      lia. }
    exists gl. unfold form_grid_lo. rewrite HHF, HV, Hpf. cbn [negb].
    by rewrite Hl.
Qed.

(** C7 (each grid function raises the wrong-type exception exactly when
    the wavefunction is not a [psi4.core.HF]; the check comes before any
    access to the grid, so the outcome does not depend on what
    [V_potential] would give; the message names [psi4.core.HF]). *)
Theorem grid_type_check :
  (∀ wf (C_lo : matrix),
     ((∃ msg, form_grid_lo f0 fadd fmul wf C_lo = Raise (WfnTypeError msg))
      ↔ is_HF wf = false) ∧
     ((∃ msg, form_grid_w f0 wf = Raise (WfnTypeError msg))
      ↔ is_HF wf = false)) ∧
  (∀ Vpot (C_lo : matrix),
     form_grid_lo f0 fadd fmul (Wfn false Vpot) C_lo
     = Raise (WfnTypeError wfn_type_msg) ∧
     form_grid_w f0 (Wfn false Vpot) = Raise (WfnTypeError wfn_type_msg)) ∧
  ∃ pre post,
    wfn_type_msg = (pre ++ "psi4.core.HF" ++ post)%string.
Proof.
  split_and!.
  - intros wf C_lo. split; split.
    + intros [msg H]. unfold form_grid_lo in H.
      destruct (is_HF wf); cbn [negb] in H; [|done]. exfalso.
      destruct (V_potential wf) as [Vpot|]; [|done].
      destruct (properties Vpot !! 0) as [pf|]; [|done].
      destruct (for_each _ _ _) as [st|e] eqn:Hloop;
        cbn [mbind result_bind] in H; [done|].
      injection H as ->. by apply lo_loop_raise in Hloop as [?|?].
    + intros H. unfold form_grid_lo. rewrite H. by eexists.
    + intros [msg H]. unfold form_grid_w in H.
      destruct (is_HF wf); cbn [negb] in H; [|done]. exfalso.
      destruct (V_potential wf) as [Vpot|]; [|done].
      destruct (for_each _ _ _) as [st|e] eqn:Hloop;
        cbn [mbind result_bind] in H; [done|].
      injection H as ->. by apply w_loop_raise in Hloop as [?|?].
    + intros H. unfold form_grid_w. rewrite H. by eexists.
  - done.
  - exists "Unknown type of argument wfn. It has to be the type of "%string,
      "."%string. reflexivity.
Qed.

End arrays.

Lemma demo_grid_ok : grid_ok demo_Vpot demo_C.
Proof.
  split; [reflexivity|]. split.
  { repeat constructor. }
  exists (λ _, demo_phi). split; [reflexivity|].
  repeat constructor; simpl; try lia; try done; cbv; lia.
Defined.

Lemma grid_alignment_witness :
  ∃ gw gl pf,
    form_grid_w 0%Z (Wfn true (Some demo_Vpot)) = OK gw ∧
    form_grid_lo 0%Z Z.add Z.mul (Wfn true (Some demo_Vpot)) demo_C = OK gl ∧
    properties demo_Vpot !! 0 = Some pf ∧
    ∀ i, i < 3 →
      ∃ b j blk prod,
        locate npoints (blocks demo_Vpot) i = Some (b, j) ∧
        blocks demo_Vpot !! b = Some blk ∧ j < npoints blk ∧
        block_lo 0%Z Z.add Z.mul pf demo_C blk = OK prod ∧
        is_Some (gw !! i) ∧ gw !! i = w blk !! j ∧
        is_Some (cells gl !! i) ∧ cells gl !! i = cells prod !! j.
Proof.
  apply (proj2 (grid_alignment 0%Z Z.add Z.mul)
           (Wfn true (Some demo_Vpot)) demo_Vpot demo_C).
  - reflexivity.
  - reflexivity.
  - exact demo_grid_ok.
Defined.

Lemma form_grid_lo_shape_witness :
  (∃ Vpot, V_potential (Wfn true (Some demo_Vpot)) = Some Vpot ∧
           nrows (Matrix 2 [[1; 2]; [3; 4]; [3; 4]]%Z) = grid_npoints Vpot ∧
           ncols (Matrix 2 [[1; 2]; [3; 4]; [3; 4]]%Z) = ncols demo_C ∧
           (wf_matrix demo_C →
            wf_matrix (Matrix 2 [[1; 2]; [3; 4]; [3; 4]]%Z))) ∧
  ∃ gl, form_grid_lo 0%Z Z.add Z.mul (Wfn true (Some demo_Vpot)) demo_C
        = OK gl.
Proof.
  split.
  - apply (proj1 (form_grid_lo_shape 0%Z Z.add Z.mul)
             (Wfn true (Some demo_Vpot)) demo_C).
    vm_compute. reflexivity.
  - apply (proj2 (form_grid_lo_shape 0%Z Z.add Z.mul)
             (Wfn true (Some demo_Vpot)) demo_Vpot demo_C).
    + reflexivity.
    + reflexivity.
    + exact demo_grid_ok.
Defined.

Lemma grid_type_check_witness :
  (∃ msg, form_grid_w 0%Z (Wfn false (Some demo_Vpot))
          = Raise (WfnTypeError msg)) ∧
  is_HF (Wfn true (Some demo_Vpot)) ≠ false.
Proof.
  split.
  - apply (proj1 (grid_type_check 0%Z Z.add Z.mul)
             (Wfn false (Some demo_Vpot)) demo_C).
    reflexivity.
  - discriminate.
Defined.

End GridFacts.

(** * Further properties of form_occ *)

Module OccExtra.
Import Occ OccFacts.

(** ** Outcomes *)

(** X1 (a call raises one of the four validation exceptions of lines
    153-167 exactly when some override entry is malformed: a channel name
    that is not alpha or beta, a string selector that is not homo or
    lumo, a resolved index not below the basis size, or a value outside
    [0,1]). *)
Theorem occ_raises_iff_malformed w occ :
  (∃ e, form_occ w occ = Raise e ∧ validation_error e) ↔
  ¬ Forall (valid_entry w) occ.
Proof. apply form_occ_validation_error. Qed.

(** X2 (the first entry whose channel name is neither alpha nor beta
    stops the call with the invalid-channel exception; entries after it
    are not looked at; for a name of ASCII characters the exception
    carries the lower-cased name). *)
Theorem occ_first_bad_channel w pre k v post :
  Forall (valid_entry w) pre → ¬ valid_channel k →
  ∃ text,
    form_occ w (pre ++ (k, v) :: post) = Raise (InvalidChannel text) ∧
    (is_ascii k → text = lower k).
Proof.
  intros Hpre Hk. exists (lower k). split; [|done].
  by apply form_occ_bad_channel.
Qed.

Lemma occ_first_bad_channel_witness :
  ∃ text,
    form_occ (Wfn 4 2 2)
      ([("beta"%string, [(SInt 3, (1#2)%Q)])]
       ++ ("Gamma"%string, []) :: [("delta"%string, [(SInt 9, 2%Q)])])
    = Raise (InvalidChannel text) ∧
    text = "gamma"%string.
Proof.
  destruct (occ_first_bad_channel (Wfn 4 2 2)
              [("beta"%string, [(SInt 3, (1#2)%Q)])] "Gamma"%string []
              [("delta"%string, [(SInt 9, 2%Q)])])
    as (text & Hr & Htext).
  - apply Forall_cons. split; [|by apply Forall_nil].
    split; [by right|]. apply Forall_cons. split; [|by apply Forall_nil].
    split; [exact I|]. split; [reflexivity|]. split; by vm_compute.
  - intros [H|H]; discriminate H.
  - exists text. split; [exact Hr|]. apply Htext. repeat (split; [cbv; lia|]). exact I.
Defined.

(** X3 (inside a valid channel the first malformed entry stops the call,
    and the checks are made in the order selector, index, value: a string
    selector that is neither homo nor lumo raises the unknown-selector
    exception, which for a selector of ASCII characters carries the
    lower-cased text; otherwise an index not below the basis size raises
    the out-of-range exception, also when the value is outside [0,1];
    otherwise a value outside [0,1] raises the invalid-occupation
    exception). *)
Theorem occ_first_bad_item w pre k vpre sel x vpost post :
  Forall (valid_entry w) pre → valid_channel k →
  Forall (valid_item w k) vpre →
  let i := index_of_selector (electron_count w k) sel in
  let r := form_occ w (pre ++ (k, vpre ++ (sel, x) :: vpost) :: post) in
  (¬ valid_selector sel →
     ∃ str text, sel = SStr str ∧ r = Raise (UnknownIndex text) ∧
                 (is_ascii str → text = lower str)) ∧
  (valid_selector sel → Z.of_nat (nbf w) ≤ i →
     r = Raise (IndexOutOfRange i (nbf w))) ∧
  (valid_selector sel → i < Z.of_nat (nbf w) → ¬ (0 <= x <= 1)%Q →
     r = Raise (InvalidOccupation x)).
Proof.
  intros Hpre Hk Hvpre i r.
  destruct (form_occ_bad_item w pre k vpre sel x vpost post Hpre Hk Hvpre)
    as (H1 & H2 & H3).
  split_and!; [|done..].
  intros Hsel. destruct (H1 Hsel) as (str & -> & Hr).
  by exists str, (lower str).
Qed.

Lemma occ_first_bad_item_witness :
  form_occ (Wfn 4 2 2)
    ([] ++ ("alpha"%string, [] ++ (SStr "LUMO+1", 2%Q) :: []) :: [])
  = Raise (UnknownIndex "lumo+1") ∧
  form_occ (Wfn 4 2 2)
    ([] ++ ("alpha"%string, [] ++ (SInt 4, 2%Q) :: []) :: [])
  = Raise (IndexOutOfRange 4 4) ∧
  form_occ (Wfn 4 2 2)
    ([] ++ ("alpha"%string, [] ++ (SInt 3, 2%Q) :: []) :: [])
  = Raise (InvalidOccupation 2).
Proof.
  split; [|split].
  - destruct (proj1 (occ_first_bad_item (Wfn 4 2 2) [] "alpha"%string []
                       (SStr "LUMO+1") 2%Q [] []
                       (Forall_nil_2 _) (or_introl eq_refl) (Forall_nil_2 _)))
      as (str & text & Hstr & Hr & Htext).
    + intros [H|H]; discriminate H.
    + injection Hstr as <-. rewrite Hr. f_equal. f_equal.
      apply Htext. repeat (split; [cbv; lia|]). exact I.
  - apply (proj1 (proj2 (occ_first_bad_item (Wfn 4 2 2) [] "alpha"%string []
                           (SInt 4) 2%Q [] []
                           (Forall_nil_2 _) (or_introl eq_refl)
                           (Forall_nil_2 _)))).
    + exact I.
    + discriminate.
  - apply (proj2 (proj2 (occ_first_bad_item (Wfn 4 2 2) [] "alpha"%string []
                           (SInt 3) 2%Q [] []
                           (Forall_nil_2 _) (or_introl eq_refl)
                           (Forall_nil_2 _)))).
    + exact I.
    + reflexivity.
    + intros [_ H]. apply H. reflexivity.
Defined.

(** X4 (a call returns a result exactly when every override entry is
    well-formed and each channel has an electron or an override entry). *)
Theorem occ_returns_iff w occ :
  (∃ res, form_occ w occ = OK res) ↔
  Forall (valid_entry w) occ ∧
  ¬ empty_channel w 0 occ ∧ ¬ empty_channel w 1 occ.
Proof.
  split.
  - intros [[[nocc idx] val] Hok].
    apply form_occ_ok in Hok
      as (li0 & lv0 & li1 & lv1 & Ha & E0 & E1 & _).
    pose proof (apply_overrides_ok_valid _ _ _ Ha) as Hv.
    apply split_sorted_ok in E0 as [Hne0 _].
    apply split_sorted_ok in E1 as [Hne1 _].
    split_and!; [done| |]; intros He; [apply Hne0|apply Hne1];
      by apply channel_dict_empty.
  - intros (Hv & H0 & H1). by apply (form_occ_valid_outcome w occ Hv).
Qed.

(** X5 (a call raises [ValueError], from the two-name binding of line
    175, exactly when every override entry is well-formed and some
    channel has neither an electron nor an override entry). *)
Theorem occ_value_error_iff w occ :
  form_occ w occ = Raise ValueError ↔
  Forall (valid_entry w) occ ∧
  (empty_channel w 0 occ ∨ empty_channel w 1 occ).
Proof.
  split.
  - intros Hr. unfold form_occ in Hr.
    destruct (apply_overrides w occ) as [rst|e] eqn:Ha;
      cbn [mbind result_bind] in Hr.
    + pose proof (apply_overrides_ok_valid _ _ _ Ha) as Hv.
      split; [done|]. rewrite (apply_overrides_ok _ _ _ Ha) in Hr.
      apply finish_raise in Hr as [[H|H] _]; [left|right];
        by apply channel_dict_empty.
    + injection Hr as ->. by apply apply_overrides_raise in Ha.
  - intros [Hv He]. by apply (form_occ_valid_outcome w occ Hv).
Qed.

(** X6 (without overrides and with at least one electron in each
    channel, the call returns the counts [nalpha, nbeta], the index
    lists 0..nalpha-1 and 0..nbeta-1, and value lists of ones). *)
Theorem occ_default_aufbau w :
  (0 < nalpha w)%nat → (0 < nbeta w)%nat →
  form_occ w [] =
  OK ([nalpha w; nbeta w],
      [seqZ 0 (Z.of_nat (nalpha w)); seqZ 0 (Z.of_nat (nbeta w))],
      [replicate (nalpha w) 1%Q; replicate (nbeta w) 1%Q]).
Proof. apply form_occ_default_occupied. Qed.

Lemma occ_default_aufbau_witness :
  form_occ (Wfn 7 3 1) [] =
  OK ([3; 1]%nat, [seqZ 0 3; seqZ 0 1],
      [replicate 3 1%Q; replicate 1 1%Q]).
Proof. apply (occ_default_aufbau (Wfn 7 3 1)); simpl; lia. Defined.

(** ** What the returned lists hold *)

Lemma form_occ_lists w occ nocc idx val s li :
  form_occ w occ = OK (nocc, idx, val) → idx !! s = Some li →
  (s < 2)%nat ∧ Forall (valid_entry w) occ ∧
  ∃ lv, val !! s = Some lv ∧ nocc !! s = Some (length li) ∧
        split_sorted (channel_dict w s occ) = OK (li, lv).
Proof.
  intros Hok Hli.
  assert (Forall (valid_entry w) occ) as Hv.
  { apply form_occ_ok in Hok as (?&?&?&?& Ha & _).
    by eapply apply_overrides_ok_valid. }
  assert (s < 2)%nat as Hs.
  { apply form_occ_ok in Hok as (?&?&?&?&_&_&_&_& -> &_).
    by apply lookup_lt_Some in Hli. }
  destruct (form_occ_channel _ _ _ _ _ s Hok Hs)
    as (li' & lv & Hli' & Hlv & Hn & Hsplit).
  rewrite Hli in Hli'. injection Hli' as <-. split_and!; [done..|].
  by exists lv.
Qed.

Lemma resolved_items_bounded w s occ i x :
  Forall (valid_entry w) occ → (i, x) ∈ resolved_items w s occ →
  i < Z.of_nat (nbf w) ∧ (0 <= x <= 1)%Q.
Proof.
  intros Hv. rewrite (resolved_items_valid _ _ _ Hv).
  intros ([sel y] & [= -> ->] & (k & v & Hkv & Hs & Hitem)
            %elem_of_channel_items)%list_elem_of_fmap.
  rewrite Forall_forall in Hv. destruct (Hv _ Hkv) as [_ Hitems].
  rewrite Forall_forall in Hitems.
  destruct (Hitems _ Hitem) as (_ & Hi & Hx). simpl in *.
  pose proof (index_of_spin_count w k s Hs) as Hn.
  apply index_of_spin in Hs as [[_ ->]|[_ ->]]; simpl in Hn |- *;
    injection Hn as ->; done.
Qed.

Lemma write_all_lookup_inv d l i x :
  write_all d l !! i = Some x → d !! i = Some x ∨ (i, x) ∈ l.
Proof.
  revert d. induction l as [|[j y] l IH]; intros d; [by left|].
  unfold write_all in *. simpl. intros [H|H]%IH.
  - destruct (decide (j = i)) as [->|Hne].
    + rewrite lookup_insert_eq in H. injection H as ->.
      right. apply list_elem_of_here.
    + rewrite lookup_insert_ne in H by done. by left.
  - right. by apply list_elem_of_further.
Qed.

(** X7 (the index list of a channel holds exactly the aufbau indices
    0..n-1 and the indices the overrides of that channel resolve to, the
    returned count is its length, and the count lies between the electron
    count and the electron count plus the number of override entries of
    the channel: an override never removes an orbital from the list). *)
Theorem occ_index_set w occ nocc idx val s li :
  form_occ w occ = OK (nocc, idx, val) → idx !! s = Some li →
  let n := nth s [nalpha w; nbeta w] 0%nat in
  nocc !! s = Some (length li) ∧
  (∀ i, i ∈ li ↔ 0 ≤ i < Z.of_nat n ∨ i ∈ (resolved_items w s occ).*1) ∧
  (n ≤ length li ≤ n + length (channel_items s occ))%nat.
Proof.
  intros Hok Hli n.
  destruct (form_occ_lists _ _ _ _ _ _ _ Hok Hli)
    as (Hs & Hv & lv & Hlv & Hn & Hsplit).
  apply split_sorted_ok in Hsplit as (_ & Hsorted & _ & _ & Hdom).
  assert (∀ i, i ∈ li ↔
               0 ≤ i < Z.of_nat n ∨ i ∈ (resolved_items w s occ).*1) as Hset.
  { intros i. rewrite Hdom. apply channel_dict_dom. }
  split_and!; [done..| |].
  - assert (seqZ 0 (Z.of_nat n) ⊆+ li) as Hsub.
    { apply NoDup_submseteq; [apply NoDup_seqZ|].
      intros i Hi%elem_of_seqZ. apply Hset. left. lia. }
    apply submseteq_length in Hsub. rewrite length_seqZ in Hsub. lia.
  - assert (li ⊆+ seqZ 0 (Z.of_nat n) ++ (resolved_items w s occ).*1)
      as Hsub.
    { apply NoDup_submseteq; [by apply sorted_NoDup|].
      intros i [Hi|Hi]%Hset; apply elem_of_app; [left|by right].
      apply elem_of_seqZ. lia. }
    apply submseteq_length in Hsub.
    rewrite length_app, length_seqZ, length_fmap in Hsub.
    rewrite (resolved_items_valid _ _ _ Hv), length_fmap in Hsub. lia.
Qed.

Lemma occ_index_set_witness :
  [4; 2]%nat !! 0%nat = Some (length [-1; 0; 1; 2]) ∧
  (∀ i, i ∈ [-1; 0; 1; 2] ↔
        0 ≤ i < Z.of_nat 3%nat ∨
        i ∈ (resolved_items (Wfn 6 3 2) 0
               [("ALPHA"%string,
                 [(SInt 2, 0%Q); (SInt (-1), (1#4)%Q)])]).*1) ∧
  (3 ≤ length [-1; 0; 1; 2]%Z ≤
   3 + length (channel_items 0
                 [("ALPHA"%string,
                   [(SInt 2, 0%Q); (SInt (-1), (1#4)%Q)])]))%nat.
Proof.
  apply (occ_index_set (Wfn 6 3 2)
           [("ALPHA"%string, [(SInt 2, 0%Q); (SInt (-1), (1#4)%Q)])]
           [4; 2]%nat [[-1; 0; 1; 2]; [0; 1]]
           [[1#4; 1; 1; 0]; [1; 1]]%Q 0%nat).
  - vm_compute. reflexivity.
  - reflexivity.
Defined.

(** X8 (every occupation value a call returns lies in [0,1], and every
    index it returns is an aufbau index of its channel or lies below the
    basis size). *)
Theorem occ_values_bounded w occ nocc idx val s li lv :
  form_occ w occ = OK (nocc, idx, val) →
  idx !! s = Some li → val !! s = Some lv →
  Forall (λ x, (0 <= x <= 1)%Q) lv ∧
  Forall (λ i, 0 ≤ i < Z.of_nat (nth s [nalpha w; nbeta w] 0%nat) ∨
               i < Z.of_nat (nbf w)) li.
Proof.
  intros Hok Hli Hlv.
  destruct (form_occ_lists _ _ _ _ _ _ _ Hok Hli)
    as (Hs & Hv & lv' & Hlv' & _ & Hsplit).
  rewrite Hlv in Hlv'. injection Hlv' as <-.
  apply split_sorted_ok in Hsplit as (_ & _ & Hlen & Hzip & Hdom).
  split.
  - apply Forall_forall. intros x Hx.
    apply list_elem_of_lookup in Hx as [j Hj].
    assert (is_Some (li !! j)) as [i Hi].
    { apply lookup_lt_is_Some. rewrite <- Hlen. by eapply lookup_lt_Some. }
    assert ((i, x) ∈ zip li lv) as Hin.
    { apply list_elem_of_lookup. exists j.
      apply lookup_zip_with_Some. eauto. }
    apply Hzip in Hin. unfold channel_dict in Hin.
    apply write_all_lookup_inv in Hin as [Hd|Hr].
    + apply aufbau_lookup in Hd as [_ ->]. split; by vm_compute.
    + by apply (resolved_items_bounded w s occ i x).
  - apply Forall_forall. intros i [Hi|Hi]%Hdom%channel_dict_dom;
      [by left|right].
    apply list_elem_of_fmap in Hi as ([i' x] & -> & Hi).
    by apply (resolved_items_bounded w s occ i' x).
Qed.

Lemma occ_values_bounded_witness :
  Forall (λ x, (0 <= x <= 1)%Q) [1#4; 1; 1; 0]%Q ∧
  Forall (λ i, 0 ≤ i < Z.of_nat 3%nat ∨ i < Z.of_nat 6%nat) [-1; 0; 1; 2].
Proof.
  apply (occ_values_bounded (Wfn 6 3 2)
           [("ALPHA"%string, [(SInt 2, 0%Q); (SInt (-1), (1#4)%Q)])]
           [4; 2]%nat [[-1; 0; 1; 2]; [0; 1]]
           [[1#4; 1; 1; 0]; [1; 1]]%Q 0%nat).
  - vm_compute. reflexivity.
  - reflexivity.
  - reflexivity.
Defined.

(** X9 (when several entries of a channel resolve to the same orbital,
    the entry that comes last in iteration order decides the returned
    value). *)
Theorem occ_last_write_wins w occ nocc idx val s l1 i x l2 :
  form_occ w occ = OK (nocc, idx, val) → (s < 2)%nat →
  resolved_items w s occ = l1 ++ (i, x) :: l2 → i ∉ l2.*1 →
  ∃ li lv, idx !! s = Some li ∧ val !! s = Some lv ∧ (i, x) ∈ zip li lv.
Proof. apply form_occ_last_write. Qed.

Lemma occ_last_write_wins_witness :
  ∃ li lv, [[0; 1]; [0; 1]] !! 0%nat = Some li ∧
           [[1; 3#4]; [1; 1]]%Q !! 0%nat = Some lv ∧
           (1, (3#4)%Q) ∈ zip li lv.
Proof.
  apply (occ_last_write_wins (Wfn 4 2 2)
           [("alpha"%string, [(SInt 1, (1#4)%Q)]);
            ("Alpha"%string, [(SStr "homo", (3#4)%Q)])]
           [2; 2]%nat [[0; 1]; [0; 1]] [[1; 3#4]; [1; 1]]%Q
           0%nat [(1, (1#4)%Q)] 1 (3#4)%Q []).
  - vm_compute. reflexivity.
  - lia.
  - reflexivity.
  - apply not_elem_of_nil.
Defined.

(** X10 (an aufbau orbital that no override of its channel resolves to
    is returned with the value 1). *)
Theorem occ_untouched_default w occ nocc idx val s i :
  form_occ w occ = OK (nocc, idx, val) → (s < 2)%nat →
  0 ≤ i < Z.of_nat (nth s [nalpha w; nbeta w] 0%nat) →
  i ∉ (resolved_items w s occ).*1 →
  ∃ li lv, idx !! s = Some li ∧ val !! s = Some lv ∧
           (i, 1%Q) ∈ zip li lv.
Proof. apply form_occ_untouched. Qed.

Lemma occ_untouched_default_witness :
  ∃ li lv, [[0; 1]; [0; 1]] !! 1%nat = Some li ∧
           [[1; 3#4]; [1; 1]]%Q !! 1%nat = Some lv ∧
           (1, 1%Q) ∈ zip li lv.
Proof.
  apply (occ_untouched_default (Wfn 4 2 2)
           [("alpha"%string, [(SStr "homo", (3#4)%Q)])]
           [2; 2]%nat [[0; 1]; [0; 1]] [[1; 3#4]; [1; 1]]%Q 1%nat 1).
  - vm_compute. reflexivity.
  - lia.
  - simpl. lia.
  - vm_compute. apply not_elem_of_nil.
Defined.

(** X11 (in a channel without electrons the selector homo resolves to
    -1; no lower bound is checked, so the entry is accepted and a
    successful call lists the orbital index -1 for that channel). *)
Theorem occ_homo_without_electrons w occ nocc idx val k v str x s :
  form_occ w occ = OK (nocc, idx, val) →
  (k, v) ∈ occ → (SStr str, x) ∈ v → lower str = "homo"%string →
  index_of (lower k) spin_chanel = Some s →
  nth s [nalpha w; nbeta w] 0%nat = 0%nat →
  ∃ li, idx !! s = Some li ∧ -1 ∈ li.
Proof.
  intros Hok Hkv Hv Hstr Hs Hn.
  assert (s < 2)%nat as Hs2 by (apply index_of_spin in Hs; lia).
  destruct (form_occ_channel _ _ _ _ _ s Hok Hs2)
    as (li & lv & Hli & _ & _ & Hsplit).
  apply split_sorted_ok in Hsplit as (_ & _ & _ & _ & Hdom).
  exists li. split; [done|]. apply Hdom, channel_dict_dom. right.
  apply list_elem_of_fmap. exists (-1, x). split; [done|].
  apply list_elem_of_omap. exists (SStr str, x). split.
  - apply elem_of_channel_items. eauto.
  - cbn [fst snd].
    assert ([nalpha w; nbeta w] !! s = Some 0%nat) as Hlk.
    { destruct s as [|[|?]]; simpl in *; [by f_equal..|lia]. }
    rewrite (resolve_valid _ _ _ _ Hlk); [|by left]. simpl.
    by rewrite decide_True.
Qed.

Lemma occ_homo_without_electrons_witness :
  ∃ li, [[0]; [-1]] !! 1%nat = Some li ∧ -1 ∈ li.
Proof.
  apply (occ_homo_without_electrons (Wfn 2 1 0)
           [("beta"%string, [(SStr "HOMO", (1#2)%Q)])]
           [1; 1]%nat [[0]; [-1]] [[1]; [1#2]]%Q
           "beta"%string [(SStr "HOMO", (1#2)%Q)] "HOMO"%string (1#2)%Q
           1%nat).
  - vm_compute. reflexivity.
  - apply list_elem_of_here.
  - apply list_elem_of_here.
  - reflexivity.
  - reflexivity.
  - reflexivity.
Defined.

(** ** Order and letter case of the overrides *)

Lemma channel_items_app s occ1 occ2 :
  channel_items s (occ1 ++ occ2) = channel_items s occ1 ++ channel_items s occ2.
Proof. unfold channel_items. by rewrite fmap_app, join_app. Qed.

(** Writes to pairwise different keys commute. *)
Lemma write_all_perm d l l' :
  l ≡ₚ l' → NoDup l.*1 → write_all d l = write_all d l'.
Proof.
  intros Hp. revert d.
  induction Hp as [|[i x] l l' Hp IH|[i x] [j y] l|l l' l'' Hp1 IH1 Hp2 IH2];
    intros d Hnd.
  - done.
  - unfold write_all in *. simpl. apply IH.
    by apply NoDup_cons in Hnd as [_ ?].
  - unfold write_all. simpl. f_equal. apply insert_insert_ne.
    simpl in Hnd. apply NoDup_cons in Hnd as [Hni _].
    rewrite not_elem_of_cons in Hni. naive_solver.
  - rewrite IH1 by done. apply IH2. by rewrite <- Hp1.
Qed.

(** X12 (when the entries of one inner mapping resolve to pairwise
    different orbitals and every entry of the call is well-formed, the
    order of these entries does not change the outcome). *)
Theorem occ_order_irrelevant w pre k v v' post s :
  Forall (valid_entry w) (pre ++ (k, v) :: post) →
  index_of (lower k) spin_chanel = Some s →
  NoDup (resolve_all [nalpha w; nbeta w] s v).*1 →
  v ≡ₚ v' →
  form_occ w (pre ++ (k, v') :: post) = form_occ w (pre ++ (k, v) :: post).
Proof.
  intros Hv Hs Hnd Hp.
  assert (Forall (valid_entry w) (pre ++ (k, v') :: post)) as Hv'.
  { rewrite Forall_app, Forall_cons in Hv |- *.
    destruct Hv as (Hpre & [Hk Hitems] & Hpost). split_and!; [done| |done].
    split; [done|]. simpl in *. by rewrite <- Hp. }
  assert (∀ s0, channel_dict w s0 (pre ++ (k, v') :: post) =
                channel_dict w s0 (pre ++ (k, v) :: post)) as Hd.
  { intros s0. unfold channel_dict, resolved_items.
    rewrite !channel_items_app, !channel_items_cons, Hs.
    rewrite !resolve_all_app, !write_all_app.
    case_decide as Hs0; [|done]. injection Hs0 as <-. f_equal.
    symmetry. apply write_all_perm; [|done].
    unfold resolve_all. by rewrite Hp. }
  destruct (apply_overrides_valid _ _ Hv) as [rst Ha].
  destruct (apply_overrides_valid _ _ Hv') as [rst' Ha'].
  unfold form_occ. rewrite Ha, Ha'.
  rewrite (apply_overrides_ok _ _ _ Ha), (apply_overrides_ok _ _ _ Ha').
  by rewrite !Hd.
Qed.

Lemma occ_order_irrelevant_witness :
  form_occ (Wfn 6 3 2)
    ([] ++ ("alpha"%string, [(SStr "lumo", (1#3)%Q); (SInt 0, 0%Q)]) :: [])
  = form_occ (Wfn 6 3 2)
      ([] ++ ("alpha"%string, [(SInt 0, 0%Q); (SStr "lumo", (1#3)%Q)]) :: []).
Proof.
  apply (occ_order_irrelevant (Wfn 6 3 2) [] "alpha"%string
           [(SInt 0, 0%Q); (SStr "lumo", (1#3)%Q)]
           [(SStr "lumo", (1#3)%Q); (SInt 0, 0%Q)] [] 0%nat).
  - apply Forall_cons. split; [|by apply Forall_nil].
    split; [by left|].
    apply Forall_cons. split.
    { split; [exact I|]. split; [reflexivity|]. split; by vm_compute. }
    apply Forall_cons. split; [|by apply Forall_nil].
    split; [by right|]. split; [reflexivity|]. split; by vm_compute.
  - reflexivity.
  - vm_compute. apply NoDup_cons. split.
    + intros H. apply elem_of_cons in H as [H|H]; [discriminate H|].
      by apply elem_of_nil in H.
    + apply NoDup_cons. split; [apply not_elem_of_nil | apply NoDup_nil_2].
  - apply perm_swap.
Defined.

Lemma lower_ascii_idem c : lower_ascii (lower_ascii c) = lower_ascii c.
Proof. by destruct c as [[] [] [] [] [] [] [] []]. Qed.

Lemma lower_idem str : lower (lower str) = lower str.
Proof.
  induction str as [|c str IH]; [done|]. simpl.
  by rewrite lower_ascii_idem, IH.
Qed.

Lemma for_each_fmap {S A B} (body : S → A → result S)
    (body' : S → B → result S) (f : B → A) st l :
  (∀ st x, body st (f x) = body' st x) →
  for_each body st (f <$> l) = for_each body' st l.
Proof.
  intros Hext. revert st. induction l as [|x l IH]; intros st; [done|].
  cbn [fmap list_fmap for_each]. rewrite Hext.
  destruct (body' st x) as [st'|e]; cbn [mbind result_bind]; [|done].
  apply IH.
Qed.

(** X13 (channel names and string selectors are matched without regard
    to letter case: when lower-casing merges no two channel names and no
    two selectors of one channel, so that the lower-cased items are again
    the items of a mapping, the call with every channel name and every
    string selector written in lower case has the same outcome). *)
Theorem occ_case_insensitive w occ :
  lower_keys_distinct occ →
  form_occ w (lower_keys occ) = form_occ w occ.
Proof.
  intros _. unfold form_occ, apply_overrides, lower_keys. f_equal.
  apply for_each_fmap. intros rst [k v]. unfold set_channel. simpl.
  rewrite lower_idem.
  destruct (index_of (lower k) spin_chanel) as [s|]; [|done].
  apply for_each_fmap. clear rst. intros rst [sel x]. unfold set_occ.
  simpl. destruct sel as [i|str]; simpl; [done|]. by rewrite lower_idem.
Qed.

Lemma occ_case_insensitive_witness :
  form_occ (Wfn 6 3 2)
    (lower_keys [("ALPHA"%string, [(SStr "Homo", (1#2)%Q); (SInt 0, 0%Q)]);
                 ("Beta"%string, [(SStr "LUMO", (1#4)%Q)])])
  = form_occ (Wfn 6 3 2)
      [("ALPHA"%string, [(SStr "Homo", (1#2)%Q); (SInt 0, 0%Q)]);
       ("Beta"%string, [(SStr "LUMO", (1#4)%Q)])].
Proof.
  apply (occ_case_insensitive (Wfn 6 3 2)).
  split.
  - vm_compute. apply NoDup_cons. split.
    + intros H. apply elem_of_cons in H as [H|H]; [discriminate H|].
      by apply elem_of_nil in H.
    + apply NoDup_cons. split; [apply not_elem_of_nil | apply NoDup_nil_2].
  - vm_compute. apply Forall_cons. split.
    + apply NoDup_cons. split.
      * intros H. apply elem_of_cons in H as [H|H]; [discriminate H|].
        by apply elem_of_nil in H.
      * apply NoDup_cons. split; [apply not_elem_of_nil | apply NoDup_nil_2].
    + apply Forall_cons. split; [|by apply Forall_nil].
      apply NoDup_cons. split; [apply not_elem_of_nil | apply NoDup_nil_2].
Defined.

End OccExtra.

(** * Further properties of the grid functions *)

Module GridExtra.
Import Grid GridFacts.

#[local] Open Scope nat_scope.

(** ** Values and overflow of a loop that places chunk after chunk *)

Section fill.
Context {St B A : Type} (proj : St → list A).
Context (size : B → nat) (chunk : B → list A).
Context (body : St * nat → B → result (St * nat)) (good : B → Prop).
Context (inv : St → Prop).
Hypothesis step : ∀ st c blk,
  good blk → inv st → c + size blk ≤ length (proj st) →
  ∃ st', body (st, c) blk = OK (st', c + size blk) ∧ inv st' ∧
         proj st' = take c (proj st) ++ chunk blk
                    ++ drop (c + size blk) (proj st).
Hypothesis chunk_length : ∀ blk, good blk → length (chunk blk) = size blk.

(** The chunks end up one after the other, from the start offset on. *)
Lemma fill_loop_concat blks st c :
  Forall good blks → inv st → c + total size blks ≤ length (proj st) →
  ∃ st', for_each body (st, c) blks = OK (st', c + total size blks) ∧
    inv st' ∧
    proj st' = take c (proj st) ++ mjoin (chunk <$> blks)
               ++ drop (c + total size blks) (proj st).
Proof.
  intros Hgood. revert st c.
  induction Hgood as [|blk rest Hblk _ IH]; intros st c Hinv Hc.
  { exists st. unfold total. simpl. rewrite Nat.add_0_r, take_drop.
    by split_and!. }
  rewrite total_cons in Hc |- *. cbn [for_each].
  destruct (step st c blk Hblk Hinv) as (st1 & -> & Hinv1 & Hst1); [lia|].
  pose proof (chunk_length blk Hblk) as Hlen.
  assert (length (take c (proj st) ++ chunk blk) = c + size blk) as Hpre.
  { rewrite length_app, length_take. lia. }
  destruct (IH st1 (c + size blk)) as (st' & Hloop & Hinv' & Hst'); [done| |].
  { rewrite Hst1, !length_app, length_take, length_drop. lia. }
  exists st'. cbn [mbind result_bind]. split_and!.
  - by rewrite Hloop, Nat.add_assoc.
  - done.
  - rewrite Hst', Hst1. cbn [fmap list_fmap mjoin list_join].
    rewrite (assoc_L (++) (take c (proj st))).
    rewrite take_app_length' by done.
    rewrite drop_app, Hpre, drop_ge by lia. rewrite app_nil_l, drop_drop.
    rewrite <- !(assoc_L (++)). do 4 f_equal. lia.
Qed.

End fill.

(** A source of two or more entries that does not fit into the rest of
    the destination is refused. *)
Lemma assign_slice_overflow {A} (dst src : list A) a :
  a ≤ length dst → length dst < a + length src → 2 ≤ length src →
  assign_slice dst a (a + length src) src = Raise ValueError.
Proof.
  intros Ha Hover Hlen. unfold assign_slice, broadcast.
  rewrite Nat.min_l, Nat.min_r by lia.
  rewrite bool_decide_false by lia.
  destruct src as [|x [|y src]]; simpl in Hlen; [lia..|done].
Qed.

Section arrays.
Context {F : Type} (f0 : F) (fadd fmul : F → F → F).

#[local] Abbreviation matrix := (@matrix F).

Lemma w_loop_concat blks (g : list F) c :
  Forall (λ blk : block, length (w blk) = npoints blk) blks →
  c + total npoints blks ≤ length g →
  for_each w_step (g, c) blks =
  OK (take c g ++ mjoin (w <$> blks) ++ drop (c + total npoints blks) g,
      c + total npoints blks).
Proof.
  intros Hgood Hc.
  destruct (fill_loop_concat (λ g : list F, g) npoints w w_step
              (λ blk, length (w blk) = npoints blk) (λ _, True))
    with (blks := blks) (st := g) (c := c)
    as (g' & Hloop & _ & Hg'); [| |done..|].
  - intros st c' blk Hblk _ Hc'. eexists. split_and!; [|done|done].
    unfold w_step. by rewrite assign_slice_exact.
  - done.
  - by rewrite Hloop, Hg'.
Qed.

Lemma lo_loop_concat pf (C_lo : matrix) blks (m : matrix) c :
  Forall (block_ok pf C_lo) blks → ncols m = ncols C_lo →
  c + total npoints blks ≤ nrows m →
  for_each (lo_step f0 fadd fmul pf C_lo) (m, c) blks =
  OK (Matrix (ncols C_lo)
        (take c (cells m)
         ++ mjoin (block_rows f0 fadd fmul pf C_lo <$> blks)
         ++ drop (c + total npoints blks) (cells m)),
      c + total npoints blks).
Proof.
  intros Hgood Hcols Hc.
  destruct (fill_loop_concat (λ m : matrix, cells m) npoints
              (block_rows f0 fadd fmul pf C_lo)
              (lo_step f0 fadd fmul pf C_lo) (block_ok pf C_lo)
              (λ m, ncols m = ncols C_lo))
    with (blks := blks) (st := m) (c := c)
    as ([nc rows] & Hloop & Hinv & Hm'); [| |done..|].
  - intros st c' blk Hblk Hinv Hc'. unfold lo_step, block_rows.
    destruct (block_lo_ok f0 fadd fmul pf C_lo blk Hblk)
      as (prod & -> & Hr & Hcl).
    cbn [mbind result_bind]. unfold assign_rows.
    rewrite bool_decide_true by congruence. cbn [mbind result_bind].
    rewrite assign_slice_exact by done. cbn [mbind result_bind].
    eexists. split_and!; [done..|]. done.
  - intros blk Hblk. unfold block_rows.
    by destruct (block_lo_ok f0 fadd fmul pf C_lo blk Hblk)
      as (prod & -> & Hr & _).
  - simpl in Hinv, Hm'. by rewrite Hloop, Hinv, Hm'.
Qed.

(** X14 (when every block has as many weights as points and the blocks
    hold no more points than the engine reports, [form_grid_w] returns
    the weights of the blocks one after the other in block order,
    followed by zeros for the points no block covers). *)
Theorem grid_w_concat wf Vpot :
  is_HF wf = true → V_potential wf = Some Vpot →
  Forall (λ blk : block, length (w blk) = npoints blk) (blocks Vpot) →
  total npoints (blocks Vpot) ≤ grid_npoints Vpot →
  form_grid_w f0 wf =
  OK (mjoin (w <$> blocks Vpot)
      ++ replicate (grid_npoints Vpot - total npoints (blocks Vpot)) f0).
Proof.
  intros HHF HV Hblks Htot. unfold form_grid_w. rewrite HHF, HV.
  cbn [negb]. rewrite w_loop_concat; [|done|by rewrite length_replicate].
  cbn [mbind result_bind fst]. by rewrite take_0, drop_replicate.
Qed.

(** X15 (on blocks that fit their point counts and [C_lo], and that
    hold no more points than the engine reports, [form_grid_lo] returns
    the rows of the block products one block after the other, followed by
    rows of zeros for the points no block covers; the row length is the
    number of columns of [C_lo]). *)
Theorem grid_lo_concat wf Vpot pf (C_lo : matrix) :
  is_HF wf = true → V_potential wf = Some Vpot →
  properties Vpot !! 0 = Some pf →
  Forall (block_ok pf C_lo) (blocks Vpot) →
  total npoints (blocks Vpot) ≤ grid_npoints Vpot →
  form_grid_lo f0 fadd fmul wf C_lo =
  OK (Matrix (ncols C_lo)
        (mjoin (block_rows f0 fadd fmul pf C_lo <$> blocks Vpot)
         ++ replicate (grid_npoints Vpot - total npoints (blocks Vpot))
              (replicate (ncols C_lo) f0))).
Proof.
  intros HHF HV Hpf Hblks Htot. unfold form_grid_lo.
  rewrite HHF, HV, Hpf. cbn [negb].
  destruct (zeros_shape f0 (grid_npoints Vpot) (ncols C_lo))
    as (Hr & Hc & _).
  rewrite lo_loop_concat; [|done|done|lia].
  cbn [mbind result_bind fst]. unfold zeros. simpl.
  by rewrite drop_replicate.
Qed.

(** X16 ([form_grid_w] raises [ValueError] at the first block, of two or
    more points, that reaches past the number of points the engine
    reports: the clipped slice is shorter than the block's weights). *)
Theorem grid_w_overflow wf Vpot pre blk post :
  is_HF wf = true → V_potential wf = Some Vpot →
  blocks Vpot = pre ++ blk :: post →
  Forall (λ blk : block, length (w blk) = npoints blk) pre →
  total npoints pre ≤ grid_npoints Vpot →
  grid_npoints Vpot < total npoints pre + npoints blk →
  length (w blk) = npoints blk → 2 ≤ npoints blk →
  form_grid_w f0 wf = Raise ValueError.
Proof.
  intros HHF HV Hblks Hpre Hfit Hover Hw Hnp. unfold form_grid_w.
  rewrite HHF, HV, Hblks. cbn [negb]. rewrite OccFacts.for_each_app.
  pose proof (w_loop_concat pre (replicate (grid_npoints Vpot) f0) 0 Hpre)
    as Hloop.
  rewrite length_replicate in Hloop. specialize (Hloop Hfit).
  pose proof (w_loop_length _ _ _ Hloop) as Hlen.
  cbn [fst] in Hlen. rewrite length_replicate in Hlen.
  rewrite Hloop. cbn [mbind result_bind for_each].
  revert Hlen. generalize (take 0 (replicate (grid_npoints Vpot) f0)
    ++ mjoin (w <$> pre)
    ++ drop (0 + total npoints pre) (replicate (grid_npoints Vpot) f0)).
  intros g Hlen. rewrite Nat.add_0_l.
  assert (w_step (g, total npoints pre) blk = Raise ValueError) as ->; [|done].
  unfold w_step. rewrite <- Hw, assign_slice_overflow; [done|lia..].
Qed.

(** X17 ([form_grid_lo] raises [ValueError] at the first block, of two
    or more points, that reaches past the number of points the engine
    reports: the clipped slice of rows is shorter than the block
    product). *)
Theorem grid_lo_overflow wf Vpot pf (C_lo : matrix) pre blk post :
  is_HF wf = true → V_potential wf = Some Vpot →
  properties Vpot !! 0 = Some pf →
  blocks Vpot = pre ++ blk :: post →
  Forall (block_ok pf C_lo) pre → block_ok pf C_lo blk →
  total npoints pre ≤ grid_npoints Vpot →
  grid_npoints Vpot < total npoints pre + npoints blk →
  2 ≤ npoints blk →
  form_grid_lo f0 fadd fmul wf C_lo = Raise ValueError.
Proof.
  intros HHF HV Hpf Hblks Hpre Hblk Hfit Hover Hnp. unfold form_grid_lo.
  rewrite HHF, HV, Hpf, Hblks. cbn [negb]. rewrite OccFacts.for_each_app.
  destruct (zeros_shape f0 (grid_npoints Vpot) (ncols C_lo))
    as (Hr & Hc & _).
  pose proof (lo_loop_concat pf C_lo pre
                (zeros f0 (grid_npoints Vpot) (ncols C_lo)) 0 Hpre Hc)
    as Hloop.
  rewrite Hr in Hloop. specialize (Hloop Hfit).
  pose proof (lo_loop_shape _ _ _ _ _ _ _ _ Hloop) as (Hrows & Hcols & _).
  cbn [fst] in Hrows, Hcols. rewrite Hr in Hrows. rewrite Hc in Hcols.
  rewrite Hloop. cbn [mbind result_bind for_each].
  revert Hrows Hcols. generalize (Matrix (ncols C_lo)
    (take 0 (cells (zeros f0 (grid_npoints Vpot) (ncols C_lo)))
     ++ mjoin (block_rows f0 fadd fmul pf C_lo <$> pre)
     ++ drop (0 + total npoints pre)
          (cells (zeros f0 (grid_npoints Vpot) (ncols C_lo))))).
  intros m Hrows Hcols. rewrite Nat.add_0_l.
  assert (lo_step f0 fadd fmul pf C_lo (m, total npoints pre) blk
          = Raise ValueError) as ->; [|done].
  unfold lo_step.
  destruct (block_lo_ok f0 fadd fmul pf C_lo blk Hblk)
    as (prod & -> & Hpr & Hpc).
  cbn [mbind result_bind]. unfold assign_rows.
  rewrite bool_decide_true by congruence. cbn [mbind result_bind].
  unfold nrows in *. rewrite <- Hpr, assign_slice_overflow; [done|lia..].
Qed.

Lemma for_each_ext_in {S A} (body body' : S → A → result S) st l :
  (∀ st x, x ∈ l → body st x = body' st x) →
  for_each body st l = for_each body' st l.
Proof.
  revert st. induction l as [|x l IH]; intros st Hext; [done|].
  cbn [for_each]. rewrite Hext by apply list_elem_of_here.
  destruct (body' st x) as [st'|e]; cbn [mbind result_bind]; [|done].
  apply IH. intros st0 y Hy. apply Hext. by apply list_elem_of_further.
Qed.

Lemma map_each_ext_in {A B} (f g : A → result B) l :
  (∀ x, x ∈ l → f x = g x) → map_each f l = map_each g l.
Proof.
  induction l as [|x l IH]; intros Hext; [done|]. cbn [map_each].
  rewrite Hext by apply list_elem_of_here.
  rewrite IH; [done|]. intros y Hy. apply Hext.
  by apply list_elem_of_further.
Qed.

(** X18 ([form_grid_lo] reads of the [PHI] buffer only the first
    [npoints] rows and the first [len(lpos)] columns of each block, and of
    [Vpot.properties()] only the first points function: two potentials
    with the same grid whose first points functions agree on these parts
    give the same outcome). *)
Theorem grid_lo_reads_phi_slice b npts blks pf pfs pf' pfs' (C_lo : matrix) :
  Forall (λ blk : block,
            slice2 (pf blk) (npoints blk)
              (length (functions_local_to_global blk)) =
            slice2 (pf' blk) (npoints blk)
              (length (functions_local_to_global blk))) blks →
  form_grid_lo f0 fadd fmul
    (Wfn b (Some (MkVBase npts blks (pf :: pfs)))) C_lo =
  form_grid_lo f0 fadd fmul
    (Wfn b (Some (MkVBase npts blks (pf' :: pfs')))) C_lo.
Proof.
  intros Hagree. unfold form_grid_lo. simpl.
  destruct b; cbn [negb]; [|done]. f_equal.
  apply for_each_ext_in. intros [m c] blk Hblk.
  rewrite Forall_forall in Hagree. specialize (Hagree _ Hblk).
  unfold lo_step, block_lo. by rewrite Hagree.
Qed.

(** X19 ([form_grid_lo] reads of [C_lo] only its number of columns and
    the rows that some block lists as a local function: two coefficient
    matrices with the same number of columns that agree on these rows
    give the same outcome). *)
Theorem grid_lo_reads_local_rows wf (C_lo C_lo' : matrix) :
  ncols C_lo = ncols C_lo' →
  (∀ Vpot blk i,
     V_potential wf = Some Vpot → blk ∈ blocks Vpot →
     i ∈ functions_local_to_global blk →
     cells C_lo !! i = cells C_lo' !! i) →
  form_grid_lo f0 fadd fmul wf C_lo = form_grid_lo f0 fadd fmul wf C_lo'.
Proof.
  intros Hcols Hrows. unfold form_grid_lo.
  destruct (is_HF wf); cbn [negb]; [|done].
  destruct (V_potential wf) as [Vpot|]; [|done].
  destruct (properties Vpot !! 0) as [pf|]; [|done].
  rewrite Hcols. f_equal.
  apply for_each_ext_in. intros [m c] blk Hblk.
  unfold lo_step, block_lo, take_rows. rewrite Hcols.
  rewrite (map_each_ext_in _
             (λ i, match cells C_lo' !! i with
                   | Some r => OK r
                   | None => Raise IndexError
                   end)); [done|].
  intros i Hi. by rewrite (Hrows Vpot blk i).
Qed.

End arrays.

Lemma grid_w_concat_witness :
  form_grid_w 0%Z
    (Wfn true (Some (MkVBase 5 [Block 2 [10; 20]%Z [0]; Block 1 [30]%Z [0]]
                       []))) =
  OK ([10; 20; 30; 0; 0]%Z).
Proof.
  apply (grid_w_concat 0%Z
           (Wfn true (Some (MkVBase 5 [Block 2 [10; 20]%Z [0];
                                       Block 1 [30]%Z [0]] [])))
           (MkVBase 5 [Block 2 [10; 20]%Z [0]; Block 1 [30]%Z [0]] [])).
  - reflexivity.
  - reflexivity.
  - repeat constructor.
  - vm_compute. lia.
Defined.

Lemma grid_lo_concat_witness :
  form_grid_lo 0%Z Z.add Z.mul (Wfn true (Some demo_Vpot)) demo_C =
  OK (Matrix (ncols demo_C)
        (mjoin (block_rows 0%Z Z.add Z.mul (λ _, demo_phi) demo_C
                  <$> blocks demo_Vpot)
         ++ replicate (3 - total npoints (blocks demo_Vpot))
              (replicate (ncols demo_C) 0%Z))).
Proof.
  apply (grid_lo_concat 0%Z Z.add Z.mul (Wfn true (Some demo_Vpot))
           demo_Vpot (λ _, demo_phi) demo_C).
  - reflexivity.
  - reflexivity.
  - reflexivity.
  - repeat constructor; simpl; try lia; try done; cbv; lia.
  - vm_compute. lia.
Defined.

Lemma grid_w_overflow_witness :
  form_grid_w 0%Z
    (Wfn true (Some (MkVBase 2 [Block 1 [10]%Z [0]; Block 2 [20; 30]%Z [0]]
                       []))) =
  Raise ValueError.
Proof.
  apply (grid_w_overflow 0%Z _
           (MkVBase 2 [Block 1 [10]%Z [0]; Block 2 [20; 30]%Z [0]] [])
           [Block 1 [10]%Z [0]] (Block 2 [20; 30]%Z [0]) []).
  - reflexivity.
  - reflexivity.
  - reflexivity.
  - repeat constructor.
  - vm_compute. lia.
  - vm_compute. lia.
  - reflexivity.
  - simpl. lia.
Defined.

Lemma grid_lo_overflow_witness :
  form_grid_lo 0%Z Z.add Z.mul
    (Wfn true (Some (MkVBase 2 [Block 1 [10]%Z [0]; Block 2 [20; 30]%Z [0; 1]]
                       [λ _, demo_phi]))) demo_C =
  Raise ValueError.
Proof.
  apply (grid_lo_overflow 0%Z Z.add Z.mul _
           (MkVBase 2 [Block 1 [10]%Z [0]; Block 2 [20; 30]%Z [0; 1]]
                    [λ _, demo_phi])
           (λ _, demo_phi) demo_C
           [Block 1 [10]%Z [0]] (Block 2 [20; 30]%Z [0; 1]) []).
  - reflexivity.
  - reflexivity.
  - reflexivity.
  - reflexivity.
  - repeat constructor; simpl; try lia; try done; cbv; lia.
  - repeat constructor; simpl; try lia; try done; cbv; lia.
  - vm_compute. lia.
  - vm_compute. lia.
  - simpl. lia.
Defined.

Lemma grid_lo_reads_phi_slice_witness :
  form_grid_lo 0%Z Z.add Z.mul
    (Wfn true (Some (MkVBase 2 [Block 2 [10; 20]%Z [1]]
                       [λ _, Matrix 2 [[1; 7]; [0; 8]; [9; 9]]%Z])))
    demo_C =
  form_grid_lo 0%Z Z.add Z.mul
    (Wfn true (Some (MkVBase 2 [Block 2 [10; 20]%Z [1]]
                       [(λ _, Matrix 1 [[1]; [0]]%Z); (λ _, demo_phi)])))
    demo_C.
Proof.
  apply (grid_lo_reads_phi_slice 0%Z Z.add Z.mul true 2
           [Block 2 [10; 20]%Z [1]]).
  apply Forall_cons. split; [reflexivity | by apply Forall_nil].
Defined.

Lemma grid_lo_reads_local_rows_witness :
  form_grid_lo 0%Z Z.add Z.mul
    (Wfn true (Some (MkVBase 2 [Block 2 [10; 20]%Z [1]] [λ _, demo_phi])))
    demo_C =
  form_grid_lo 0%Z Z.add Z.mul
    (Wfn true (Some (MkVBase 2 [Block 2 [10; 20]%Z [1]] [λ _, demo_phi])))
    (Matrix 2 [[5; 6]; [3; 4]; [7; 7]]%Z).
Proof.
  apply (grid_lo_reads_local_rows 0%Z Z.add Z.mul).
  - reflexivity.
  - intros Vpot blk i HV Hblk Hi. injection HV as <-. simpl in Hblk.
    apply list_elem_of_singleton in Hblk. subst blk. simpl in Hi.
    apply list_elem_of_singleton in Hi. subst i. reflexivity.
Defined.

End GridExtra.
